(** * CDC field-exclude validation: a shallow embedding of
      [scripts/validate_cdc_excludes.py] and the properties of its
      specification.

    Modelling choices.
    - A Python [str] is a [list ascii].  The model covers text made of 7-bit
      ASCII code points: on those, [is_space], [is_word], [to_upper] and
      [to_lower] below agree with Python's [\s], [\w], [str.upper] and the
      case folding of [re.IGNORECASE].  Code points above 127 are left
      outside both classes and are fixed by the case maps, where Python
      knows further letters, digits and spaces; a statement about which
      characters a result can hold therefore carries the hypothesis that
      the input is ASCII ([is_ascii]).
    - A regular expression is a term of [regex]; [exec] is a backtracking
      matcher with the priorities of Python's [re] (greedy repetition, first
      alternative that lets the rest of the pattern succeed).
    - The value returned by [json.load] is a term of [json].
    - A raised exception is the [None] of an [option].
    - The error messages appended to [errors] are kept as the constructor of
      [error] that names the f-string, together with the values it
      interpolates. *)

From Stdlib Require Import Ascii String.
From stdpp Require Import base option list gmap strings.

Open Scope list_scope.

(** ** Text *)

Abbreviation text := (list ascii).

Definition str (s : string) : text := list_ascii_of_string s.
Arguments str : simpl never.

Definition code (c : ascii) : nat := nat_of_ascii c.

Definition between (lo hi : nat) (c : ascii) : bool :=
  (lo <=? code c) && (code c <=? hi).

(** [\s] on ASCII: TAB, LF, VT, FF, CR, the separators FS GS RS US, space. *)
Definition is_space (c : ascii) : bool :=
  between 9 13 c || between 28 31 c || (code c =? 32).

Definition is_digit (c : ascii) : bool := between 48 57 c.
Definition is_upper_letter (c : ascii) : bool := between 65 90 c.
Definition is_lower_letter (c : ascii) : bool := between 97 122 c.

(** [\w] on ASCII: letters, digits and the underscore. *)
Definition is_word (c : ascii) : bool :=
  is_digit c || is_upper_letter c || is_lower_letter c || (code c =? 95).

Definition to_upper (c : ascii) : ascii :=
  if is_lower_letter c then ascii_of_nat (code c - 32) else c.

Definition to_lower (c : ascii) : ascii :=
  if is_upper_letter c then ascii_of_nat (code c + 32) else c.

(** [str.upper()] *)
Definition upper (s : text) : text := map to_upper s.

Definition eqc (a b : ascii) : bool := bool_decide (a = b).

Definition dot : ascii := "."%char.
Definition comma : ascii := ","%char.
Definition newline : ascii := "010"%char.
Definition star_char : ascii := "*"%char.

(** [str.strip()]: whitespace removed at both ends. *)
Fixpoint lstrip (s : text) : text :=
  match s with
  | c :: s' => if is_space c then lstrip s' else s
  | [] => []
  end.

Definition rstrip (s : text) : text := rev (lstrip (rev s)).

Definition strip (s : text) : text := rstrip (lstrip s).

(** [sub in s] for two strings. *)
Fixpoint starts_with (p s : text) : bool :=
  match p, s with
  | [], _ => true
  | a :: p', b :: s' => eqc a b && starts_with p' s'
  | _ :: _, [] => false
  end.

Fixpoint contains (sub s : text) : bool :=
  starts_with sub s ||
  match s with
  | [] => false
  | _ :: s' => contains sub s'
  end.

(** [s.split(sep)] for a one-character separator: never an empty list. *)
Fixpoint split (sep : ascii) (s : text) : list text :=
  match s with
  | [] => [[]]
  | c :: s' =>
      if eqc c sep then [] :: split sep s'
      else match split sep s' with
           | h :: t => (c :: h) :: t
           | [] => [[c]]
           end
  end.

(** ** Regular expressions *)

Inductive regex : Type :=
| Empty
| Lit (c : ascii)
| Class (p : ascii -> bool)
| Seq (r1 r2 : regex)
| Star (r : regex)
| Group (r : regex).

Definition Plus (r : regex) : regex := Seq r (Star r).

(** A run of literal characters, as written in a pattern or produced by
    [re.escape]. *)
Fixpoint lits (s : text) : regex :=
  match s with
  | [] => Empty
  | c :: s' => Seq (Lit c) (lits s')
  end.

(** A literal under the flags: with [re.IGNORECASE] both sides are folded. *)
Definition lit_matches (ignorecase : bool) (l c : ascii) : bool :=
  if ignorecase then eqc (to_lower l) (to_lower c) else eqc l c.

(** What a successful match reports: [group(0)], [group(1)] and the text
    after the match. *)
Record match_obj : Type := MatchObj {
  group0 : text;
  group1 : option text;
  after : text
}.

Definition consumed (s s' : text) : text := take (length s - length s') s.

Section Exec.
Context {R : Type}.
Variable ignorecase : bool.

(** Greedy repetition of [body]: one more round is tried first, and an
    empty round is not repeated; when the rounds fail, the rest of the
    pattern [k] runs from here.  [n] bounds the rounds by the length of
    the input. *)
Fixpoint star_loop
    (body : text -> option text -> (text -> option text -> option R) -> option R)
    (k : text -> option text -> option R)
    (n : nat) (s : text) (g : option text) {struct n} : option R :=
  match n with
  | 0 => k s g
  | S n' =>
      match body s g
              (fun s1 g1 =>
                 if length s1 <? length s then star_loop body k n' s1 g1 else None)
      with
      | Some x => Some x
      | None => k s g
      end
  end.

(** [exec r s g k]: match [r] at the head of [s]; [g] is the capture so
    far; [k] is the rest of the pattern, given the remaining input and the
    capture.  A failing continuation makes the matcher back up and try
    its next choice. *)
Fixpoint exec (r : regex) (s : text) (g : option text)
    (k : text -> option text -> option R) {struct r} : option R :=
  match r with
  | Empty => k s g
  | Lit l =>
      match s with
      | c :: s' => if lit_matches ignorecase l c then k s' g else None
      | [] => None
      end
  | Class p =>
      match s with
      | c :: s' => if p c then k s' g else None
      | [] => None
      end
  | Seq r1 r2 => exec r1 s g (fun s1 g1 => exec r2 s1 g1 k)
  | Star r' => star_loop (exec r') k (length s) s g
  | Group r' => exec r' s g (fun s1 _ => k s1 (Some (consumed s s1)))
  end.
End Exec.

(** [pattern.match(s)]: a match that starts at the head of [s]. *)
Definition re_match (ignorecase : bool) (r : regex) (s : text) : option match_obj :=
  exec ignorecase r s None (fun s' g => Some (MatchObj (consumed s s') g s')).

(** [re.search]: the match at the leftmost position that has one. *)
Fixpoint re_search (ignorecase : bool) (r : regex) (s : text) : option match_obj :=
  match s with
  | [] => re_match ignorecase r []
  | _ :: s' =>
      match re_match ignorecase r s with
      | Some m => Some m
      | None => re_search ignorecase r s'
      end
  end.

(** [re.finditer]: the matches from left to right, each search resuming
    where the previous match ended.  [skip] counts the characters of the
    previous match still to be passed over.  The patterns of the script
    match no empty text, so the rule for a search after an empty match plays
    no part. *)
Fixpoint finditer_from (ignorecase : bool) (r : regex) (skip : nat) (s : text)
    : list match_obj :=
  match s with
  | [] =>
      match skip, re_match ignorecase r [] with
      | 0, Some m => [m]
      | _, _ => []
      end
  | _ :: s' =>
      match skip with
      | S n => finditer_from ignorecase r n s'
      | 0 =>
          match re_match ignorecase r s with
          | Some m => m :: finditer_from ignorecase r (length (group0 m) - 1) s'
          | None => finditer_from ignorecase r 0 s'
          end
      end
  end.

Definition re_finditer (ignorecase : bool) (r : regex) (s : text) : list match_obj :=
  finditer_from ignorecase r 0 s.

(** ** The three patterns of the script *)

Definition is_table_char (c : ascii) : bool := is_word c || eqc c dot || eqc c star_char.
Definition is_ref_char (c : ascii) : bool := is_word c || eqc c dot.
Definition not_newline (c : ascii) : bool := negb (eqc c newline).
Definition not_comma_space (c : ascii) : bool := negb (eqc c comma || is_space c).

(** [r'TABLE\s+[\w\.\*]+[^\n]*'] *)
Definition table_pattern : regex :=
  Seq (lits (str "TABLE"))
    (Seq (Plus (Class is_space))
       (Seq (Plus (Class is_table_char)) (Star (Class not_newline)))).

(** [r'TABLE\s+([\w\.]+)'] *)
Definition table_name_pattern : regex :=
  Seq (lits (str "TABLE"))
    (Seq (Plus (Class is_space)) (Group (Plus (Class is_ref_char)))).

(** [rf'COLEXC\s+[^,\s]*{re.escape(field)}[^,\s]*'] *)
Definition colexc_pattern (field : text) : regex :=
  Seq (lits (str "COLEXC"))
    (Seq (Plus (Class is_space))
       (Seq (Star (Class not_comma_space))
          (Seq (lits field) (Star (Class not_comma_space))))).

(** ** The parsed configuration document *)

#[local] Set Warnings "-register-all".

Inductive json : Type :=
| JNull
| JBool (b : bool)
| JNum (n : Z)
| JStr (s : text)
| JArr (items : list json)
| JObj (fields : list (text * json)).

(** [d.get(key)] on the key/value pairs of a dict. *)
Fixpoint dict_get (key : text) (fields : list (text * json)) : option json :=
  match fields with
  | [] => None
  | (k, v) :: rest => if bool_decide (k = key) then Some v else dict_get key rest
  end.

Definition is_str (key : text) (j : json) : bool :=
  match j with
  | JStr s => bool_decide (s = key)
  | _ => false
  end.

(** [key in obj]: a key test on a dict, an element test on a list, a
    substring test on a str, a [TypeError] on anything else. *)
Definition key_in (key : text) (obj : json) : option bool :=
  match obj with
  | JObj fields => Some (bool_decide (is_Some (dict_get key fields)))
  | JArr items => Some (existsb (is_str key) items)
  | JStr s => Some (contains key s)
  | _ => None
  end.

(** [obj[key]] with a str key: defined on a dict that has the key. *)
Definition subscript (obj : json) (key : text) : option json :=
  match obj with
  | JObj fields => dict_get key fields
  | _ => None
  end.

(** [for x in obj]: the items of a list, the keys of a dict, the characters
    of a str. *)
Definition iterate (obj : json) : option (list json) :=
  match obj with
  | JArr items => Some items
  | JObj fields => Some (map (fun kv => JStr (fst kv)) fields)
  | JStr s => Some (map (fun c => JStr [c]) s)
  | _ => None
  end.

(** A table declaration: [(extract_name, table_statement, full_config_text)]. *)
Record table_config : Type := TableConfig {
  extract_name : json;
  table_statement : text;
  full_config : text
}.

(** ** Statement extractor *)

(** The nested [find_table_statements]; the [prefix] argument is only
    built, never read, and is left out. *)
Fixpoint find_table_statements (name : json) (obj : json) : list table_config :=
  match obj with
  | JStr s =>
      map (fun m => TableConfig name (strip (group0 m)) s)
        (re_finditer true table_pattern s)
  | JObj fields =>
      flat_map (fun kv => find_table_statements name (snd kv)) fields
  | JArr items => flat_map (find_table_statements name) items
  | _ => []
  end.

(** The body of the loop over the extracts.  [config_sections] is filled as
    in the source, where nothing reads it afterwards; filling it can raise. *)
Definition extract_one (extract : json) : option (list table_config) :=
  match extract with
  | JObj fields =>
      let name := default (JStr (str "UNKNOWN")) (dict_get (str "name") fields) in
      let config := default (JObj []) (dict_get (str "config") fields) in
      has_raw ← key_in (str "raw_config") config;
      config_sections ←
        (if has_raw : bool
         then raw ← subscript config (str "raw_config"); Some [raw]
         else Some []);
      has_parameters ← key_in (str "parameters") config;
      config_sections ←
        (if has_parameters : bool
         then parameters ← subscript config (str "parameters");
              Some (match parameters with
                    | JStr _ => config_sections ++ [parameters]
                    | JArr items => config_sections ++ items
                    | _ => config_sections
                    end)
         else Some config_sections);
      Some (find_table_statements name config)
  | _ => None
  end.

Fixpoint extract_all (extracts : list json) (table_configs : list table_config)
    : option (list table_config) :=
  match extracts with
  | [] => Some table_configs
  | extract :: rest =>
      found ← extract_one extract;
      extract_all rest (table_configs ++ found)
  end.

Definition extract_table_configs (extract_config : json) : option (list table_config) :=
  match extract_config with
  | JObj fields =>
      extracts ← iterate (default (JArr []) (dict_get (str "extracts") fields));
      extract_all extracts []
  | _ => None
  end.

(** ** Rule matcher *)

Definition extract_table_name (table_statement : text) : text :=
  match re_search true table_name_pattern table_statement with
  | Some m =>
      let table_ref := default [] (group1 m) in
      let table_name :=
        if existsb (eqc dot) table_ref
        then List.last (split dot table_ref) []
        else table_ref in
      upper table_name
  | None => []
  end.

Inductive error : Type :=
| CouldNotExtract (name : json) (statement : text)
| MissingColexc (name : json) (table_name : text) (missing : list text).

Definition colexc_found (field full : text) : bool :=
  bool_decide (is_Some (re_search true (colexc_pattern field) full)).

Definition missing_colexc (required_fields : list text) (full : text) : list text :=
  fold_left
    (fun missing field =>
       if colexc_found field full then missing else missing ++ [field])
    required_fields [].

Definition validate_step (exclude_fields : gmap text (list text))
    (errors : list error) (tc : table_config) : list error :=
  let table_name := extract_table_name (table_statement tc) in
  match table_name with
  | [] => errors ++ [CouldNotExtract (extract_name tc) (table_statement tc)]
  | _ :: _ =>
      match exclude_fields !! table_name with
      | Some required_fields =>
          match missing_colexc required_fields (full_config tc) with
          | [] => errors
          | missing => errors ++ [MissingColexc (extract_name tc) table_name missing]
          end
      | None => errors
      end
  end.

Definition validate_colexc_statements (exclude_fields : gmap text (list text))
    (table_configs : list table_config) : list error :=
  fold_left (validate_step exclude_fields) table_configs [].

(** ** Reference loader *)

(** A fetched row; a cell is [None] for SQL NULL, on which [.upper()]
    raises. *)
Definition row : Type := option text * option text.

Definition add_row (exclude_map : gmap text (list text)) (table_name field_name : text)
    : gmap text (list text) :=
  let exclude_map :=
    match exclude_map !! table_name with
    | None => <[table_name := []]> exclude_map
    | Some _ => exclude_map
    end in
  <[table_name := default [] (exclude_map !! table_name) ++ [field_name]]> exclude_map.

Fixpoint group_rows (results : list row) (exclude_map : gmap text (list text))
    : option (gmap text (list text)) :=
  match results with
  | [] => Some exclude_map
  | (Some t, Some f) :: rest => group_rows rest (add_row exclude_map (upper t) (upper f))
  | _ :: _ => None
  end.

(** [get_exclude_fields] once [fetchall] has returned [results]. *)
Definition get_exclude_fields (results : list row) : option (gmap text (list text)) :=
  group_rows results ∅.

(** ** Driver *)

(** What [parse_extract_config] meets at [--config-path]: no file, text
    that is not JSON, any other failure of [open] or [json.load] (a
    directory, bytes that do not decode), which the method does not catch, or
    a document. *)
Inductive config_file : Type :=
| FileNotFound
| InvalidJson
| Unreadable
| Parsed (doc : json).

(** What a run depends on: the three environment variables, whether
    [sql.connect] succeeds, the rows of the query ([None] when the cursor
    raises) and the configuration file. *)
Record world : Type := World {
  DATABRICKS_SERVER_HOSTNAME : option text;
  DATABRICKS_HTTP_PATH : option text;
  DATABRICKS_ACCESS_TOKEN : option text;
  connects : bool;
  fetchall : option (list row);
  config : config_file
}.

(** What is printed: one constructor per [print], or per run of [print]s
    that always come together, of [main] and of the methods it calls, with
    the values the lines interpolate. *)
Inductive message : Type :=
| MissingEnvHeader
| EnvVarLine (name : text)
| Starting
| ConnectFailed
| Connected
| Retrieved (exclude_map : gmap text (list text))
| ParsedConfig
| FoundStatements (table_configs : list table_config)
| NoTableStatements
| Validating (table_configs : list table_config)
| ValidationFailed (errors : list error)
| ValidationPassed
| ValidationErrorLine
| UnexpectedErrorLine
| ClosedConnection.

(** Truth value of [os.getenv(...)]: unset and empty are both false. *)
Definition truthy (v : option text) : bool :=
  match v with
  | Some (_ :: _) => true
  | _ => false
  end.

(** [main] from the environment check on, that is, once
    [parser.parse_args()] has returned: what is printed, and the exit status
    of the process.  [run_main] below puts the parsing in front. *)
Definition main (w : world) : list message * nat :=
  if negb (forallb truthy
             [DATABRICKS_SERVER_HOSTNAME w; DATABRICKS_HTTP_PATH w; DATABRICKS_ACCESS_TOKEN w])
  then ([MissingEnvHeader;
         EnvVarLine (str "DATABRICKS_SERVER_HOSTNAME");
         EnvVarLine (str "DATABRICKS_HTTP_PATH");
         EnvVarLine (str "DATABRICKS_ACCESS_TOKEN")], 1)
  else if negb (connects w) then ([Starting; ConnectFailed], 1)
  else
    match fetchall w ≫= get_exclude_fields with
    | None => ([Starting; Connected; ValidationErrorLine; ClosedConnection], 1)
    | Some exclude_fields =>
        match config w with
        | FileNotFound | InvalidJson =>
            ([Starting; Connected; Retrieved exclude_fields;
              ValidationErrorLine; ClosedConnection], 1)
        | Unreadable =>
            ([Starting; Connected; Retrieved exclude_fields;
              UnexpectedErrorLine; ClosedConnection], 1)
        | Parsed doc =>
            match extract_table_configs doc with
            | None =>
                ([Starting; Connected; Retrieved exclude_fields; ParsedConfig;
                  UnexpectedErrorLine; ClosedConnection], 1)
            | Some [] =>
                ([Starting; Connected; Retrieved exclude_fields; ParsedConfig;
                  FoundStatements []; NoTableStatements; ClosedConnection], 0)
            | Some table_configs =>
                match validate_colexc_statements exclude_fields table_configs with
                | [] =>
                    ([Starting; Connected; Retrieved exclude_fields; ParsedConfig;
                      FoundStatements table_configs; Validating table_configs;
                      ValidationPassed; ClosedConnection], 0)
                | errors =>
                    ([Starting; Connected; Retrieved exclude_fields; ParsedConfig;
                      FoundStatements table_configs; Validating table_configs;
                      ValidationFailed errors; ClosedConnection], 1)
                end
            end
        end
    end.

(** What [parser.parse_args()] makes of the command line: [--help] prints
    the help and ends the run with status 0, a usage error (an unknown
    option, an option without its value) prints the usage and ends the run
    with status 2, and otherwise the arguments are returned. *)
Inductive args_outcome : Type :=
| HelpRequested
| UsageError
| ArgsParsed.

(** A line of output of the process: argparse's own, or one of [main]'s. *)
Inductive output_line : Type :=
| HelpText
| UsageErrorText
| Printed (msg : message).

(** The whole of [main], from the command line on. *)
Definition run_main (args : args_outcome) (w : world) : list output_line * nat :=
  match args with
  | HelpRequested => ([HelpText], 0)
  | UsageError => ([UsageErrorText], 2)
  | ArgsParsed => (map Printed (fst (main w)), snd (main w))
  end.

(** * The specification's notions *)

(** The two halves of the agreement between a matcher and a set of words:
    every result comes from a word followed by a rest the continuation
    accepts, and every such split gives a result. *)
Definition body_sound {R : Type}
    (body : text -> option text -> (text -> option text -> option R) -> option R)
    (P : text -> Prop) : Prop :=
  forall s g k x, body s g k = Some x ->
    exists a b g', s = a ++ b /\ P a /\ k b g' = Some x.

Definition body_complete {R : Type}
    (body : text -> option text -> (text -> option text -> option R) -> option R)
    (P : text -> Prop) : Prop :=
  forall a b g k, P a -> (forall g', is_Some (k b g')) ->
    is_Some (body (a ++ b) g k).

(** Concatenations of non-empty words of [P]. *)
Inductive star_lang (P : text -> Prop) : text -> Prop :=
| star_nil : star_lang P []
| star_app a b : P a -> a <> [] -> star_lang P b -> star_lang P (a ++ b).

(** The words of a pattern. *)
Fixpoint lang (ignorecase : bool) (r : regex) : text -> Prop :=
  match r with
  | Empty => fun a => a = []
  | Lit l => fun a => exists c, a = [c] /\ lit_matches ignorecase l c = true
  | Class p => fun a => exists c, a = [c] /\ p c = true
  | Seq r1 r2 =>
      fun a => exists a1 a2, a = a1 ++ a2 /\ lang ignorecase r1 a1 /\ lang ignorecase r2 a2
  | Star r' => star_lang (lang ignorecase r')
  | Group r' => lang ignorecase r'
  end.

(** The longest run of [p] at the head of a text, and what follows it. *)
Fixpoint take_while (p : ascii -> bool) (s : text) : text :=
  match s with
  | c :: s' => if p c then c :: take_while p s' else []
  | [] => []
  end.

Fixpoint drop_while (p : ascii -> bool) (s : text) : text :=
  match s with
  | c :: s' => if p c then drop_while p s' else s
  | [] => []
  end.

(** Equality of two texts up to the case of their letters. *)
Definition ci_eq (a b : text) : Prop := map to_lower a = map to_lower b.

(** The specification's condition: the context holds the exclusion keyword,
    whitespace, then a run of characters that are neither commas nor
    whitespace and that contains the field name, letters compared without
    case. *)
Definition exclusion_statement_for (field ctx : text) : Prop :=
  exists pre kw ws run post,
    ctx = pre ++ kw ++ ws ++ run ++ post /\
    ci_eq (str "COLEXC") kw /\
    ws <> [] /\ forallb is_space ws = true /\
    forallb not_comma_space run = true /\
    exists x f y, run = x ++ f ++ y /\ ci_eq field f.

(** The identifier characters as the specification lists them. *)
Definition dotted_ident_char (c : ascii) : bool :=
  is_upper_letter c || is_lower_letter c || is_digit c || eqc c "_"%char || eqc c dot.

(** Keyword, whitespace, an identifier over [ident_char], the rest of the
    line. *)
Definition declaration_shape (ident_char : ascii -> bool) (m : text) : Prop :=
  exists kw ws ident rest,
    m = kw ++ ws ++ ident ++ rest /\
    ci_eq (str "TABLE") kw /\
    ws <> [] /\ forallb is_space ws = true /\
    ident <> [] /\ forallb ident_char ident = true /\
    forallb not_newline rest = true.

(** The match stops where the line does. *)
Definition at_end_of_line (rest : text) : Prop :=
  rest = [] \/ exists t, rest = newline :: t.

(** [match.group(1)] of the search in [extract_table_name]. *)
Definition captured_ref (table_statement : text) : option text :=
  re_search true table_name_pattern table_statement ≫= group1.

(** The required fields with no exclusion statement in the context. *)
Definition unmatched (required_fields : list text) (full : text) : list text :=
  filter (fun field => colexc_found field full = false) required_fields.

(** A row without NULL cells. *)
Definition some_row (r : text * text) : row := (Some (fst r), Some (snd r)).

(** The upper-cased field names of the rows of table [t], in row order. *)
Definition fields_for (t : text) (results : list (text * text)) : list text :=
  map (fun r => upper (snd r)) (filter (fun r => upper (fst r) = t) results).

(** No lower-case letter is left. *)
Definition uppercased (s : text) : Prop :=
  upper s = s /\ forallb (fun c => negb (is_lower_letter c)) s = true.

(** The three variables [main] reads, with their values. *)
Definition required_vars (w : world) : list (text * option text) :=
  [(str "DATABRICKS_SERVER_HOSTNAME", DATABRICKS_SERVER_HOSTNAME w);
   (str "DATABRICKS_HTTP_PATH", DATABRICKS_HTTP_PATH w);
   (str "DATABRICKS_ACCESS_TOKEN", DATABRICKS_ACCESS_TOKEN w)].

(** The required variables that are unset or empty. *)
Definition missing_vars (w : world) : list text :=
  map fst (filter (fun v => truthy (snd v) = false) (required_vars w)).

(** The variable names that the output lists. *)
Definition listed_vars (out : list message) : list text :=
  flat_map (fun msg => match msg with EnvVarLine name => [name] | _ => [] end) out.

(** The string values reachable under a value, through mappings and
    sequences, in the order of the walk; keys are not values. *)
Fixpoint strings_under (j : json) : list text :=
  match j with
  | JStr s => [s]
  | JArr items => flat_map strings_under items
  | JObj fields => flat_map (fun kv => strings_under (snd kv)) fields
  | _ => []
  end.

(** One declaration per match of the pattern in [s], with [s] as context. *)
Definition declarations_in (name : json) (s : text) : list table_config :=
  map (fun m => TableConfig name (strip (group0 m)) s) (re_finditer true table_pattern s).

(** The name and the [config] of an entry, with the defaults of [.get]. *)
Definition entry_name (fields : list (text * json)) : json :=
  default (JStr (str "UNKNOWN")) (dict_get (str "name") fields).

Definition entry_config (fields : list (text * json)) : json :=
  default (JObj []) (dict_get (str "config") fields).

(** What the specification asks of an entry: one declaration per match per
    string reachable under its [config]. *)
Definition entry_declarations (extract : json) : list table_config :=
  match extract with
  | JObj fields =>
      flat_map (declarations_in (entry_name fields)) (strings_under (entry_config fields))
  | _ => []
  end.

(** An entry that is a mapping whose [config] is absent or a mapping. *)
Definition well_formed_entry (extract : json) : bool :=
  match extract with
  | JObj fields =>
      match dict_get (str "config") fields with
      | None | Some (JObj _) => true
      | Some _ => false
      end
  | _ => false
  end.

(** The extract list of a document that is a mapping: absent, or a
    sequence. *)
Definition document_entries (doc : json) : option (list json) :=
  match doc with
  | JObj fields =>
      match dict_get (str "extracts") fields with
      | None => Some []
      | Some (JArr items) => Some items
      | Some _ => None
      end
  | _ => None
  end.

(** The number of lines of a text: one more than its line feeds. *)
Definition line_count (s : text) : nat := S (count_occ ascii_dec s newline).

(** The values of [config] on which neither key test nor subscript of the
    loop body raises: a mapping; a sequence with no item equal to one of
    the two key names; a string with neither key name inside. *)
Definition config_accepted (config : json) : bool :=
  match config with
  | JObj _ => true
  | JArr items =>
      negb (existsb (is_str (str "raw_config")) items)
      && negb (existsb (is_str (str "parameters")) items)
  | JStr s =>
      negb (contains (str "raw_config") s) && negb (contains (str "parameters") s)
  | _ => false
  end.

(** An entry the loop body gets through: a mapping with such a [config]. *)
Definition entry_accepted (extract : json) : bool :=
  match extract with
  | JObj fields => config_accepted (entry_config fields)
  | _ => false
  end.

(** A row with a NULL cell. *)
Definition has_null (r : row) : bool :=
  match r with
  | (Some _, Some _) => false
  | _ => true
  end.




(** A 7-bit ASCII character. *)
Definition is_ascii (c : ascii) : bool := code c <? 128.

(** * Sample inputs *)

Definition sample_blob : text :=
  str "EXTRACT E1" ++ [newline] ++ str "  table hr.orders, COLEXC (ssn);" ++ [newline]
  ++ str "MAP x".

Definition sample_match : match_obj :=
  MatchObj (str "table hr.orders, COLEXC (ssn);") None ([newline] ++ str "MAP x").

Definition bare_keyword : table_config :=
  TableConfig (JStr (str "EXT1")) (str "TABLE") (str "TABLE").

Definition schema_only : table_config :=
  TableConfig (JStr (str "EXT1")) (str "TABLE SCHEMA.") (str "TABLE SCHEMA., COLEXC (SSN)").

Definition orders_decl : table_config :=
  TableConfig (JStr (str "EXT1")) (str "TABLE ORDERS, COLEXC (SSN);")
    (str "TABLE ORDERS, COLEXC (SSN);").

Definition mixed_case_rows : list row :=
  [(Some (str "Orders"), Some (str "ssn")); (Some (str "orders"), Some (str "Dob"))].

Definition no_hostname : world :=
  World None (Some (str "/sql/1.0/warehouses/abc")) (Some (str "dapi123"))
    true (Some []) (Parsed (JObj [])).

Definition demo_doc : json :=
  JObj [(str "extracts",
         JArr [JObj [(str "name", JStr (str "EXT1"));
                     (str "config",
                      JObj [(str "raw_config", JStr (str "TABLE HR.ORDERS, COLEXC (SSN);"));
                            (str "parameters",
                             JArr [JStr (str "table hr.emp"); JNum 3])])];
               JObj [(str "name", JStr (str "EXT2"))]])].

Definition demo_entries : list json :=
  [JObj [(str "name", JStr (str "EXT1"));
         (str "config",
          JObj [(str "raw_config", JStr (str "TABLE HR.ORDERS, COLEXC (SSN);"));
                (str "parameters", JArr [JStr (str "table hr.emp"); JNum 3])])];
   JObj [(str "name", JStr (str "EXT2"))]].

Definition null_config_doc : json :=
  JObj [(str "extracts",
         JArr [JObj [(str "name", JStr (str "EXT1")); (str "config", JNull)]])].

Definition orders_world (blob : string) : world :=
  World (Some (str "dbc.example.net")) (Some (str "/sql/1.0/warehouses/abc"))
    (Some (str "dapi123")) true
    (Some [(Some (str "orders"), Some (str "dob")); (Some (str "orders"), Some (str "ssn"))])
    (Parsed (JObj [(str "extracts",
                    JArr [JObj [(str "name", JStr (str "EXT1"));
                                (str "config", JObj [(str "raw_config", JStr (str blob))])]])])).

Definition qualified_orders : text := str "table hr.dbo.Orders, COLEXC (ssn)".

Definition wildcard_config : json :=
  JObj [(str "raw_config", JStr (str "EXTRACT E1" ++ [newline] ++ str "table hr.* "))].

Definition wildcard_decl : table_config :=
  TableConfig (JStr (str "EXT1")) (str "table hr.*")
    (str "EXTRACT E1" ++ [newline] ++ str "table hr.* ").

Definition list_config_doc : list (text * json) :=
  [(str "extracts",
    JArr [JObj [(str "name", JStr (str "EXT1"));
                (str "config", JArr [JStr (str "TABLE HR.ORDERS")])];
          JObj [(str "name", JStr (str "EXT2")); (str "config", JNull)]])].

Definition lower_case_rows : list (text * text) :=
  [(str "orders", str "ssn"); (str "customers", str "dob")].

(** * Properties *)


(** ** Characters *)

Ltac by_cases_on_char c :=
  destruct c as [[] [] [] [] [] [] [] []]; vm_compute; try reflexivity; try discriminate;
  try congruence.

Lemma is_space_to_lower c : is_space (to_lower c) = is_space c.
Proof. by_cases_on_char c. Qed.

Lemma comma_to_lower c : eqc (to_lower c) comma = eqc c comma.
Proof. by_cases_on_char c. Qed.

Lemma to_upper_idem c : to_upper (to_upper c) = to_upper c.
Proof. by_cases_on_char c. Qed.

Lemma to_upper_not_lower c : is_lower_letter (to_upper c) = false.
Proof. by_cases_on_char c. Qed.

Lemma eqc_true a b : eqc a b = true <-> a = b.
Proof. unfold eqc. apply bool_decide_eq_true. Qed.

Lemma eqc_refl a : eqc a a = true.
Proof. by apply eqc_true. Qed.

(** ** What a pattern denotes *)

Section ExecTheory.
Context {R : Type}.
Variable ic : bool.

Abbreviation kont := (text -> option text -> option R).
Lemma star_loop_sound body P (k : kont) :
  body_sound (R:=R) body P ->
  forall n s g x, star_loop body k n s g = Some x ->
    exists a b g', s = a ++ b /\ star_lang P a /\ k b g' = Some x.
Proof.
  intros Hb n. induction n as [|n IH]; intros s g x H; simpl in H.
  - exists [], s, g. split; [done|]. split; [constructor|done].
  - destruct (body s g _) as [y|] eqn:E.
    + injection H as ->.
      apply Hb in E as (a & b & g' & -> & Ha & Hk).
      destruct (length b <? length (a ++ b)) eqn:Hlt; [|discriminate].
      apply IH in Hk as (a2 & b2 & g2 & -> & Ha2 & Hk).
      exists (a ++ a2), b2, g2. split; [by rewrite app_assoc|]. split; [|done].
      apply star_app; [done| |done].
      intros ->. simpl in Hlt. apply Nat.ltb_lt in Hlt. lia.
    + exists [], s, g. split; [done|]. split; [constructor|done].
Qed.

Lemma star_loop_complete body P (k : kont) :
  body_complete (R:=R) body P ->
  forall a, star_lang P a ->
  forall b n g, length (a ++ b) <= n -> (forall g', is_Some (k b g')) ->
    is_Some (star_loop body k n (a ++ b) g).
Proof.
  intros Hb a Ha. induction Ha as [|a1 a2 H1 Hne H2 IH]; intros b n g Hn Hk.
  - destruct n as [|n]; simpl; [apply Hk|].
    destruct (body b g _); [eauto|apply Hk].
  - destruct n as [|n].
    { destruct a1; [done|]. simpl in Hn. lia. }
    simpl.
    destruct (body ((a1 ++ a2) ++ b) g _) as [y|] eqn:E; [eauto|].
    exfalso. rewrite <- app_assoc in E.
    assert (Hs : is_Some (body (a1 ++ a2 ++ b) g
              (fun s1 g1 => if length s1 <? length (a1 ++ a2 ++ b)
                            then star_loop body k n s1 g1 else None))).
    { apply Hb; [done|]. intros g'.
      assert (Hlt : length (a2 ++ b) < length (a1 ++ a2 ++ b)).
      { rewrite (length_app a1). destruct a1; [done|]. simpl. lia. }
      apply Nat.ltb_lt in Hlt as ->. apply IH; [|done].
      rewrite <- app_assoc, (length_app a1) in Hn.
      destruct a1; [done|]. simpl in Hn. lia. }
    rewrite E in Hs. by destruct Hs.
Qed.

(** Every result of the matcher comes from a split of the input into a
    word of the pattern and a rest accepted by the continuation. *)
Lemma exec_sound r : body_sound (R:=R) (exec ic r) (lang ic r).
Proof.
  induction r as [|l|p|r1 IH1 r2 IH2|r IH|r IH]; intros s g k x H; simpl in H.
  - exists [], s, g. done.
  - destruct s as [|c s]; [done|].
    destruct (lit_matches ic l c) eqn:E; [|done].
    exists [c], s, g. split; [done|]. split; [|done]. exists c. done.
  - destruct s as [|c s]; [done|].
    destruct (p c) eqn:E; [|done].
    exists [c], s, g. split; [done|]. split; [|done]. exists c. done.
  - apply IH1 in H as (a1 & b1 & g1 & -> & H1 & H).
    apply IH2 in H as (a2 & b2 & g2 & -> & H2 & H).
    exists (a1 ++ a2), b2, g2. split; [by rewrite app_assoc|]. split; [|done].
    exists a1, a2. done.
  - eapply star_loop_sound in H; [|exact IH]. exact H.
  - apply IH in H as (a & b & g' & -> & Ha & H).
    exists a, b, (Some (consumed (a ++ b) b)). done.
Qed.

(** Backtracking loses no match: a word of the pattern followed by a rest
    that the continuation accepts is matched. *)
Lemma exec_complete r : body_complete (R:=R) (exec ic r) (lang ic r).
Proof.
  induction r as [|l|p|r1 IH1 r2 IH2|r IH|r IH]; intros a b g k Ha Hk; simpl in *.
  - subst a. apply Hk.
  - destruct Ha as (c & -> & Hc). simpl. rewrite Hc. apply Hk.
  - destruct Ha as (c & -> & Hc). simpl. rewrite Hc. apply Hk.
  - destruct Ha as (a1 & a2 & -> & H1 & H2). rewrite <- app_assoc.
    apply IH1; [done|]. intros g'. by apply IH2.
  - eapply star_loop_complete; eauto.
  - apply IH; [done|]. intros _. apply Hk.
Qed.
End ExecTheory.

(** ** Matching, searching and iterating *)

Lemma take_drop_while p s : take_while p s ++ drop_while p s = s.
Proof. induction s as [|c s IH]; simpl; [done|]. destruct (p c); simpl; congruence. Qed.

Lemma take_while_all p s : forallb p (take_while p s) = true.
Proof. induction s as [|c s IH]; simpl; [done|]. destruct (p c) eqn:E; simpl; [|done]. by rewrite E. Qed.

Lemma drop_while_head p s : match drop_while p s with [] => True | c :: _ => p c = false end.
Proof. induction s as [|c s IH]; simpl; [done|]. destruct (p c) eqn:E; simpl; done. Qed.

Lemma drop_while_app p a b :
  forallb p a = true -> drop_while p (a ++ b) = drop_while p b.
Proof.
  induction a as [|c a IH]; simpl; [done|].
  intros [-> H]%andb_true_iff. auto.
Qed.

Lemma consumed_app (a b : text) : consumed (a ++ b) b = a.
Proof.
  unfold consumed. rewrite length_app.
  replace (length a + length b - length b) with (length a) by lia.
  by rewrite take_app_length.
Qed.

Lemma star_lang_class p a : star_lang (fun w => exists c, w = [c] /\ p c = true) a <-> forallb p a = true.
Proof.
  split.
  - induction 1 as [|a b (c & -> & Hc) _ _ IH]; simpl; [done|]. by rewrite Hc.
  - induction a as [|c a IH]; simpl; [constructor|].
    intros [Hc Ha]%andb_true_iff. apply (star_app _ [c] a); [by exists c|done|auto].
Qed.

(** A greedy class repetition in front of a continuation that cannot fail
    takes the longest run. *)
Lemma star_class_greedy {R} ic p (k : text -> option text -> option R) :
  (forall s g, is_Some (k s g)) ->
  forall n s g, length s <= n ->
    star_loop (exec ic (Class p)) k n s g = k (drop_while p s) g.
Proof.
  intros Hk n. induction n as [|n IH]; intros s g Hn.
  - destruct s; [done|]. simpl in Hn. lia.
  - destruct s as [|c s]; simpl; [done|].
    destruct (p c); [|done].
    assert (Hlt : length s < S (length s)) by lia.
    apply Nat.ltb_lt in Hlt. rewrite Hlt.
    rewrite IH by (simpl in Hn; lia).
    by destruct (Hk (drop_while p s) g) as [x ->].
Qed.

Lemma re_match_sound ic r s m :
  re_match ic r s = Some m ->
  s = group0 m ++ after m /\ lang ic r (group0 m).
Proof.
  unfold re_match. intros H.
  apply exec_sound in H as (a & b & g' & -> & Ha & H).
  injection H as <-. simpl. by rewrite consumed_app.
Qed.

Lemma re_match_complete ic r a b : lang ic r a -> is_Some (re_match ic r (a ++ b)).
Proof. intros Ha. unfold re_match. apply exec_complete; [done|]. eauto. Qed.

Lemma re_search_sound ic r s m :
  re_search ic r s = Some m ->
  exists pre, s = pre ++ group0 m ++ after m /\
              re_match ic r (group0 m ++ after m) = Some m.
Proof.
  induction s as [|c s IH]; simpl; intros H.
  - exists []. apply re_match_sound in H as H'. destruct H' as [<- _]. done.
  - destruct (re_match ic r (c :: s)) as [m'|] eqn:E.
    + injection H as ->. exists [].
      apply re_match_sound in E as H'. destruct H' as [<- _]. done.
    + apply IH in H as (pre & -> & H). by exists (c :: pre).
Qed.

Lemma re_search_complete ic r pre a post :
  lang ic r a -> is_Some (re_search ic r (pre ++ a ++ post)).
Proof.
  intros Ha. induction pre as [|c pre IH]; simpl.
  - pose proof (re_match_complete ic r a post Ha) as Hm.
    destruct (a ++ post); simpl; [done|]. destruct Hm as [m ->]. eauto.
  - destruct (re_match ic r (c :: pre ++ a ++ post)); eauto.
Qed.

(** [re.search] finds a match exactly when some substring is a word of the
    pattern. *)
Lemma re_search_iff ic r s :
  is_Some (re_search ic r s) <->
  exists pre a post, s = pre ++ a ++ post /\ lang ic r a.
Proof.
  split.
  - intros [m H]. apply re_search_sound in H as (pre & -> & H).
    apply re_match_sound in H as [_ H]. eauto.
  - intros (pre & a & post & -> & Ha). by apply re_search_complete.
Qed.

Lemma finditer_from_elem ic r skip s m :
  m ∈ finditer_from ic r skip s ->
  exists pre, s = pre ++ group0 m ++ after m /\
              re_match ic r (group0 m ++ after m) = Some m.
Proof.
  revert skip. induction s as [|c s IH]; intros skip; simpl.
  - destruct skip; [|by intros ?%elem_of_nil].
    destruct (re_match ic r []) as [m'|] eqn:E; [|by intros ?%elem_of_nil].
    intros ->%list_elem_of_singleton. exists [].
    apply re_match_sound in E as H'. destruct H' as [<- _]. done.
  - destruct skip as [|n].
    + destruct (re_match ic r (c :: s)) as [m'|] eqn:E.
      * intros [->|H]%elem_of_cons.
        -- exists []. apply re_match_sound in E as H'. destruct H' as [<- _]. done.
        -- apply IH in H as (pre & -> & H). by exists (c :: pre).
      * intros H. apply IH in H as (pre & -> & H). by exists (c :: pre).
    + intros H. apply IH in H as (pre & -> & H). by exists (c :: pre).
Qed.

Lemma finditer_found ic r pre a post :
  lang ic r a -> re_finditer ic r (pre ++ a ++ post) <> [].
Proof.
  intros Ha. unfold re_finditer. induction pre as [|c pre IH]; simpl.
  - pose proof (re_match_complete ic r a post Ha) as [m Hm].
    destruct (a ++ post); simpl; rewrite Hm; done.
  - destruct (re_match ic r (c :: pre ++ a ++ post)); done.
Qed.

(** ** Words of the patterns, in the specification's terms *)

Lemma ci_eq_length a b : ci_eq a b -> length a = length b.
Proof. unfold ci_eq. intros H. by rewrite <- (length_map to_lower a), H, length_map. Qed.

Lemma lang_lits w a : lang true (lits w) a <-> ci_eq w a.
Proof.
  unfold ci_eq. revert a. induction w as [|l w IH]; intros a; simpl.
  - split; [by intros ->|]. by destruct a.
  - split.
    + intros (a1 & a2 & -> & (c & -> & Hc) & H2). simpl.
      apply eqc_true in Hc. apply IH in H2. congruence.
    + destruct a as [|c a]; [done|]. simpl. intros [= Hc Ha].
      exists [c], a. split; [done|]. split; [|by apply IH].
      exists c. split; [done|]. by apply eqc_true.
Qed.

Lemma lang_star_class ic p a : lang ic (Star (Class p)) a <-> forallb p a = true.
Proof. simpl. apply star_lang_class. Qed.

Lemma lang_plus_class ic p a :
  lang ic (Plus (Class p)) a <-> a <> [] /\ forallb p a = true.
Proof.
  split.
  - intros (a1 & a2 & -> & (c & -> & Hc) & H2). apply lang_star_class in H2.
    split; [done|]. simpl. by rewrite Hc.
  - intros [Hne H]. destruct a as [|c a]; [done|]. simpl in H.
    apply andb_true_iff in H as [Hc Ha].
    exists [c], a. split; [done|]. split; [by exists c|]. by apply lang_star_class.
Qed.

Lemma forallb_ci_eq (p : ascii -> bool) a b :
  (forall c, p (to_lower c) = p c) -> ci_eq a b -> forallb p a = forallb p b.
Proof.
  unfold ci_eq. intros Hp. revert b. induction a as [|x a IH]; intros [|y b]; simpl; try done.
  intros [= Hxy Hab]. rewrite (IH b Hab). f_equal.
  by rewrite <- (Hp x), <- (Hp y), Hxy.
Qed.

Lemma not_comma_space_to_lower c : not_comma_space (to_lower c) = not_comma_space c.
Proof. unfold not_comma_space. by rewrite comma_to_lower, is_space_to_lower. Qed.

(** ** Rule matcher: when a required field counts as present *)

(** What the pattern of the source matches, for any field name: the field
    name itself sits between two runs and is compared as a literal. *)
Lemma colexc_found_iff field ctx :
  colexc_found field ctx = true <->
  exists pre kw ws r1 f r2 post,
    ctx = pre ++ (kw ++ ws ++ r1 ++ f ++ r2) ++ post /\
    ci_eq (str "COLEXC") kw /\
    ws <> [] /\ forallb is_space ws = true /\
    forallb not_comma_space r1 = true /\
    ci_eq field f /\
    forallb not_comma_space r2 = true.
Proof.
  unfold colexc_found. rewrite bool_decide_eq_true, re_search_iff.
  unfold colexc_pattern. split.
  - intros (pre & a & post & -> & kw & a1 & -> & Hkw & ws & a2 & -> & Hws
            & r1 & a3 & -> & Hr1 & f & r2 & -> & Hf & Hr2).
    apply lang_lits in Hkw, Hf. apply lang_plus_class in Hws as [Hne Hws].
    apply lang_star_class in Hr1, Hr2.
    exists pre, kw, ws, r1, f, r2, post. done.
  - intros (pre & kw & ws & r1 & f & r2 & post & -> & Hkw & Hne & Hws & Hr1 & Hf & Hr2).
    exists pre, (kw ++ ws ++ r1 ++ f ++ r2), post. split; [done|].
    exists kw, (ws ++ r1 ++ f ++ r2). split; [done|]. split; [by apply lang_lits|].
    exists ws, (r1 ++ f ++ r2). split; [done|]. split; [by apply lang_plus_class|].
    exists r1, (f ++ r2). split; [done|]. split; [by apply lang_star_class|].
    exists f, r2. split; [done|]. split; [by apply lang_lits|]. by apply lang_star_class.
Qed.

(** A field name with a comma or a whitespace character is in no run, so the
    specification's condition never holds for it. *)
Lemma exclusion_statement_needs_clean_field field ctx :
  exclusion_statement_for field ctx -> forallb not_comma_space field = true.
Proof.
  intros (pre & kw & ws & run & post & _ & _ & _ & _ & Hrun & x & f & y & -> & Hf).
  rewrite !forallb_app in Hrun.
  apply andb_true_iff in Hrun as [_ Hrun]. apply andb_true_iff in Hrun as [Hrun _].
  by rewrite (forallb_ci_eq _ _ _ not_comma_space_to_lower Hf).
Qed.

(** C3, as the source has it.  For a field name free of commas and
    whitespace, the field counts as present exactly when the context holds
    the exclusion keyword, whitespace, and a run of non-comma, non-whitespace
    characters containing the field name without regard to case; and a
    context with [COLEXC SSN_MASKED] satisfies the requirement for [SSN]. *)
Theorem colexc_found_spec (field ctx : text) :
  forallb not_comma_space field = true ->
  (colexc_found field ctx = true <-> exclusion_statement_for field ctx) /\
  (forall pre post,
     colexc_found (str "SSN") (pre ++ str "COLEXC SSN_MASKED" ++ post) = true).
Proof.
  intros Hfield. split; [rewrite colexc_found_iff; split|].
  - intros (pre & kw & ws & r1 & f & r2 & post & -> & Hkw & Hne & Hws & Hr1 & Hf & Hr2).
    exists pre, kw, ws, (r1 ++ f ++ r2), post.
    split; [by rewrite <- !app_assoc|]. split; [done|]. split; [done|]. split; [done|].
    split; [|by exists r1, f, r2].
    rewrite !forallb_app, Hr1, Hr2, <- (forallb_ci_eq _ _ _ not_comma_space_to_lower Hf).
    by rewrite Hfield.
  - intros (pre & kw & ws & run & post & -> & Hkw & Hne & Hws & Hrun & x & f & y & -> & Hf).
    rewrite !forallb_app in Hrun.
    apply andb_true_iff in Hrun as [Hx Hrun]. apply andb_true_iff in Hrun as [_ Hy].
    exists pre, kw, ws, x, f, y, post. split; [by rewrite <- !app_assoc|]. done.
  - intros pre post. apply colexc_found_iff.
    exists pre, (str "COLEXC"), (str " "), [], (str "SSN"), (str "_MASKED"), post.
    repeat split; done.
Qed.

Lemma colexc_found_spec_witness :
  forallb not_comma_space (str "DOB") = true /\
  (colexc_found (str "DOB") (str "TABLE HR.ORDERS, COLEXC (DOB_TS, X);") = true <->
   exclusion_statement_for (str "DOB") (str "TABLE HR.ORDERS, COLEXC (DOB_TS, X);")).
Proof.
  split; [reflexivity|].
  apply (colexc_found_spec (str "DOB") (str "TABLE HR.ORDERS, COLEXC (DOB_TS, X);")).
  reflexivity.
Defined.

(** C3 as stated fails for a field name that contains a blank: the source
    finds [COLEXC FIRST NAME], and no run free of whitespace contains the
    name. *)
Lemma colexc_found_blank_field :
  colexc_found (str "FIRST NAME") (str "TABLE HR.EMP, COLEXC FIRST NAME") = true /\
  ~ exclusion_statement_for (str "FIRST NAME") (str "TABLE HR.EMP, COLEXC FIRST NAME").
Proof.
  split; [by vm_compute|].
  intros H%exclusion_statement_needs_clean_field. by vm_compute in H.
Qed.

(** ** Statement extractor: what is matched as a table declaration *)

(** A pattern that ends in a greedy class repetition: the match is a word
    of the front part followed by the longest run of the class. *)
Lemma re_match_seq_star_class ic r p s m :
  re_match ic (Seq r (Star (Class p))) s = Some m ->
  exists a b, s = a ++ b /\ lang ic r a /\
              group0 m = a ++ take_while p b /\ after m = drop_while p b.
Proof.
  unfold re_match. simpl. intros H.
  apply exec_sound in H as (a & b & g' & -> & Ha & H).
  change (star_loop (exec ic (Class p))
            (fun s' g => Some (MatchObj (consumed (a ++ b) s') g s'))
            (length b) b g' = Some m) in H.
  rewrite star_class_greedy in H by eauto.
  injection H as <-. simpl. exists a, b. split; [done|]. split; [done|]. split; [|done].
  rewrite <- (take_drop_while p b) at 1. by rewrite app_assoc, consumed_app.
Qed.

Lemma table_pattern_lang a :
  lang true table_pattern a <-> declaration_shape is_table_char a.
Proof.
  unfold table_pattern, declaration_shape. split.
  - intros (kw & a1 & -> & Hkw & ws & a2 & -> & Hws & ident & rest & -> & Hid & Hrest).
    apply lang_lits in Hkw. apply lang_plus_class in Hws as [? ?], Hid as [? ?].
    apply lang_star_class in Hrest. by exists kw, ws, ident, rest.
  - intros (kw & ws & ident & rest & -> & Hkw & ? & ? & ? & ? & ?).
    exists kw, (ws ++ ident ++ rest). split; [done|]. split; [by apply lang_lits|].
    exists ws, (ident ++ rest). split; [done|]. split; [by apply lang_plus_class|].
    exists ident, rest. split; [done|]. split; [by apply lang_plus_class|].
    by apply lang_star_class.
Qed.

Lemma table_match_shape s m :
  re_match true table_pattern s = Some m ->
  declaration_shape is_table_char (group0 m) /\ at_end_of_line (after m).
Proof.
  intros H.
  change (re_match true
            (Seq (Seq (lits (str "TABLE"))
                    (Seq (Plus (Class is_space)) (Plus (Class is_table_char))))
               (Star (Class not_newline))) s = Some m) in H.
  apply re_match_seq_star_class in H as (a & b & -> & Ha & Hg & Hafter).
  split.
  - destruct Ha as (kw & a1 & -> & Hkw & ws & ident & -> & Hws & Hid).
    apply lang_lits in Hkw. apply lang_plus_class in Hws as [? ?], Hid as [? ?].
    exists kw, ws, ident, (take_while not_newline b).
    split; [by rewrite Hg, <- !app_assoc|]. repeat (split; [done|]).
    apply take_while_all.
  - rewrite Hafter. pose proof (drop_while_head not_newline b) as Hh.
    destruct (drop_while not_newline b) as [|c t]; [by left|]. right. exists t.
    unfold not_newline in Hh. apply negb_false_iff, eqc_true in Hh. by subst c.
Qed.

(** C5, as the source has it.  Every match of the extractor in a string is
    a substring made of the keyword in any case, whitespace, an identifier of
    letters, digits, underscores, dots and asterisks, and the rest of the
    line, up to its end; and a string that holds such a substring anywhere
    has a match. *)
Theorem table_statements_shape (s : text) (m : match_obj) :
  m ∈ re_finditer true table_pattern s ->
  (exists pre, s = pre ++ group0 m ++ after m /\
               declaration_shape is_table_char (group0 m) /\
               at_end_of_line (after m)) /\
  (forall pre w post,
     declaration_shape is_table_char w ->
     re_finditer true table_pattern (pre ++ w ++ post) <> []).
Proof.
  intros Hm. split.
  - apply finditer_from_elem in Hm as (pre & Hs & Hm).
    exists pre. split; [done|]. by apply table_match_shape in Hm.
  - intros pre w post Hw. apply finditer_found. by apply table_pattern_lang.
Qed.

Lemma table_statements_shape_witness :
  sample_match ∈ re_finditer true table_pattern sample_blob /\
  exists pre, sample_blob = pre ++ group0 sample_match ++ after sample_match /\
              declaration_shape is_table_char (group0 sample_match) /\
              at_end_of_line (after sample_match).
Proof.
  assert (H : sample_match ∈ re_finditer true table_pattern sample_blob).
  { vm_compute. apply list_elem_of_here. }
  split; [exact H|].
  exact (proj1 (table_statements_shape sample_blob sample_match H)).
Defined.

(** C5 as stated fails on an identifier that starts with an asterisk: the
    extractor matches [TABLE *], which is not keyword, whitespace and an
    identifier of letters, digits, underscores and dots. *)
Lemma table_statement_with_asterisk :
  exists m, m ∈ re_finditer true table_pattern (str "TABLE *") /\
            group0 m = str "TABLE *" /\
            ~ declaration_shape dotted_ident_char (group0 m).
Proof.
  exists (MatchObj (str "TABLE *") None []).
  split; [vm_compute; apply list_elem_of_here|]. split; [done|].
  simpl. intros (kw & ws & ident & rest & Heq & Hkw & Hne & Hws & Hine & Hid & _).
  apply ci_eq_length in Hkw.
  do 6 (destruct kw as [|? kw]; try discriminate Hkw).
  injection Heq as _ _ _ _ _ Heq.
  destruct ws as [|c ws]; [done|]. injection Heq as <- Heq.
  destruct ws as [|c ws].
  - destruct ident as [|c ident]; [done|]. injection Heq as <- _. discriminate Hid.
  - injection Heq as <- _. discriminate Hws.
Qed.

(** ** Rule matcher: the table name *)

Lemma star_class_greedy_some {R} ic p (k : text -> option text -> option R) n s g x :
  length s <= n ->
  k (drop_while p s) g = Some x ->
  star_loop (exec ic (Class p)) k n s g = Some x.
Proof.
  revert s. induction n as [|n IH]; intros s Hn Hk.
  - destruct s; [done|]. simpl in Hn. lia.
  - destruct s as [|c s]; simpl in *; [by rewrite Hk|].
    destruct (p c); [|by rewrite Hk].
    assert (Hlt : length s < S (length s)) by lia.
    apply Nat.ltb_lt in Hlt. rewrite Hlt.
    rewrite IH; [done|lia|done].
Qed.

Lemma exec_plus_class_greedy {R} ic p (k : text -> option text -> option R) c s g x :
  p c = true ->
  k (drop_while p s) g = Some x ->
  exec ic (Plus (Class p)) (c :: s) g k = Some x.
Proof.
  intros Hc Hk.
  change (exec ic (Plus (Class p)) (c :: s) g k)
    with (if p c then star_loop (exec ic (Class p)) k (length s) s g else None).
  rewrite Hc. by apply star_class_greedy_some.
Qed.

Lemma exec_lits {R} w a b g (k : text -> option text -> option R) :
  ci_eq w a -> exec true (lits w) (a ++ b) g k = k b g.
Proof.
  unfold ci_eq. revert a. induction w as [|l w IH]; intros [|c a]; simpl; try done.
  intros [= Hc Ha]. unfold lit_matches. rewrite Hc, eqc_refl. by apply IH.
Qed.

Lemma is_ref_char_not_space c : is_ref_char c = true -> is_space c = false.
Proof. by_cases_on_char c. Qed.

Lemma drop_while_stop p s :
  match s with [] => True | c :: _ => p c = false end -> drop_while p s = s.
Proof. destruct s as [|c s]; simpl; [done|]. by intros ->. Qed.

Lemma re_search_here ic r s m : re_match ic r s = Some m -> re_search ic r s = Some m.
Proof. intros H. destruct s; simpl; [done|]. by rewrite H. Qed.

(** What is captured from a statement that starts with the keyword: the
    longest run of word characters and dots after the whitespace. *)
Lemma captured_ref_shape kw ws ident rest :
  ci_eq (str "TABLE") kw ->
  ws <> [] -> forallb is_space ws = true ->
  ident <> [] -> forallb is_ref_char ident = true ->
  match rest with [] => True | c :: _ => is_ref_char c = false end ->
  captured_ref (kw ++ ws ++ ident ++ rest) = Some ident.
Proof.
  intros Hkw Hne Hws Hine Hid Hrest. unfold captured_ref.
  rewrite (re_search_here _ _ _ (MatchObj (kw ++ ws ++ ident) (Some ident) rest)); [done|].
  unfold re_match, table_name_pattern.
  change (exec true (Seq ?r1 ?r2) ?s ?g ?k)
    with (exec true r1 s g (fun s1 g1 => exec true r2 s1 g1 k)).
  rewrite exec_lits by done.
  change (exec true (Seq ?r1 ?r2) ?s ?g ?k)
    with (exec true r1 s g (fun s1 g1 => exec true r2 s1 g1 k)).
  destruct ws as [|c ws]; [done|]. simpl in Hws. apply andb_true_iff in Hws as [Hc Hws].
  destruct ident as [|i ident]; [done|]. simpl in Hid. apply andb_true_iff in Hid as [Hi Hid].
  rewrite <- app_comm_cons.
  apply exec_plus_class_greedy; [done|].
  rewrite drop_while_app by done.
  rewrite drop_while_stop by (simpl; by apply is_ref_char_not_space).
  change (exec true (Group ?r) ?s ?g ?k)
    with (exec true r s g (fun s1 _ => k s1 (Some (consumed s s1)))).
  rewrite <- app_comm_cons.
  apply exec_plus_class_greedy; [done|].
  rewrite drop_while_app by done. rewrite drop_while_stop by done.
  simpl group1. f_equal. f_equal.
  - f_equal. rewrite !app_comm_cons. by rewrite !app_assoc, consumed_app, <- !app_assoc.
  - f_equal. apply (consumed_app (i :: ident) rest).
Qed.

(** Whatever is captured is a non-empty run of word characters and dots
    that follows the keyword and whitespace somewhere in the statement. *)
Lemma captured_ref_sound stmt ident :
  captured_ref stmt = Some ident ->
  exists pre kw ws rest,
    stmt = pre ++ kw ++ ws ++ ident ++ rest /\
    ci_eq (str "TABLE") kw /\
    ws <> [] /\ forallb is_space ws = true /\
    ident <> [] /\ forallb is_ref_char ident = true.
Proof.
  unfold captured_ref.
  destruct (re_search true table_name_pattern stmt) as [m|] eqn:E; [|done].
  simpl. intros Hg. apply re_search_sound in E as (pre & -> & Hm).
  unfold re_match, table_name_pattern in Hm.
  change (exec true (Seq ?r1 ?r2) ?s ?g ?k)
    with (exec true r1 s g (fun s1 g1 => exec true r2 s1 g1 k)) in Hm.
  apply exec_sound in Hm as (kw & b1 & g1 & Hs & Hkw & Hm). cbv beta in Hm.
  change (exec true (Seq ?r1 ?r2) ?s ?g ?k)
    with (exec true r1 s g (fun s1 g1 => exec true r2 s1 g1 k)) in Hm.
  apply exec_sound in Hm as (ws & b2 & g2 & -> & Hws & Hm). cbv beta in Hm.
  change (exec true (Group ?r) ?s ?g ?k)
    with (exec true r s g (fun s1 _ => k s1 (Some (consumed s s1)))) in Hm.
  apply exec_sound in Hm as (id & rest & g3 & -> & Hid & Hm). cbv beta in Hm.
  injection Hm as Hm. apply (f_equal group1) in Hm. simpl in Hm, Hg.
  rewrite Hg, consumed_app in Hm. injection Hm as ->.
  apply lang_lits in Hkw. apply lang_plus_class in Hws as [? ?], Hid as [? ?].
  exists pre, kw, ws, rest. by rewrite Hs.
Qed.

(** No identifier is captured exactly when no part of the statement is the
    keyword, whitespace and a word character or dot. *)
Lemma captured_ref_none_iff stmt :
  captured_ref stmt = None <->
  ~ exists pre kw ws c rest,
      stmt = pre ++ kw ++ ws ++ c :: rest /\
      ci_eq (str "TABLE") kw /\ ws <> [] /\ forallb is_space ws = true /\
      is_ref_char c = true.
Proof.
  split.
  - intros Hnone (pre & kw & ws & c & rest & -> & Hkw & Hne & Hws & Hc).
    assert (Hs : is_Some (re_search true table_name_pattern
                            (pre ++ (kw ++ ws ++ [c]) ++ rest))).
    { apply re_search_complete. exists kw, (ws ++ [c]). split; [done|].
      split; [by apply lang_lits|]. exists ws, [c]. split; [done|].
      split; [by apply lang_plus_class|]. apply lang_plus_class. split; [done|].
      simpl. by rewrite Hc. }
    rewrite <- !app_assoc in Hs. simpl in Hs. destruct Hs as [m Hm].
    destruct (captured_ref (pre ++ kw ++ ws ++ c :: rest)) as [ident|] eqn:E; [done|].
    unfold captured_ref in E. rewrite Hm in E. simpl in E.
    apply re_search_sound in Hm as (pre' & _ & Hm).
    unfold re_match, table_name_pattern in Hm.
    change (exec true (Seq ?r1 ?r2) ?s ?g ?k)
      with (exec true r1 s g (fun s1 g1 => exec true r2 s1 g1 k)) in Hm.
    apply exec_sound in Hm as (? & ? & ? & _ & _ & Hm). cbv beta in Hm.
    change (exec true (Seq ?r1 ?r2) ?s ?g ?k)
      with (exec true r1 s g (fun s1 g1 => exec true r2 s1 g1 k)) in Hm.
    apply exec_sound in Hm as (? & ? & ? & _ & _ & Hm). cbv beta in Hm.
    change (exec true (Group ?r) ?s ?g ?k)
      with (exec true r s g (fun s1 _ => k s1 (Some (consumed s s1)))) in Hm.
    apply exec_sound in Hm as (? & ? & ? & _ & _ & Hm). cbv beta in Hm.
    injection Hm as Hm. apply (f_equal group1) in Hm. simpl in Hm. by rewrite E in Hm.
  - intros Hno. destruct (captured_ref stmt) as [ident|] eqn:E; [|done].
    exfalso. apply Hno.
    apply captured_ref_sound in E as (pre & kw & ws & rest & -> & Hkw & Hne & Hws & Hine & Hid).
    destruct ident as [|c ident]; [done|]. simpl in Hid.
    apply andb_true_iff in Hid as [Hc _].
    exists pre, kw, ws, c, (ident ++ rest). done.
Qed.

Lemma split_no_sep sep s : sep ∉ s -> split sep s = [s].
Proof.
  induction s as [|c s IH]; simpl; [done|].
  intros [Hc Hs]%not_elem_of_cons. rewrite IH by done.
  unfold eqc. by rewrite bool_decide_eq_false_2.
Qed.

Lemma split_not_nil sep s : split sep s <> [].
Proof.
  induction s as [|c s IH]; simpl; [done|].
  destruct (eqc c sep); [done|]. by destruct (split sep s).
Qed.

Lemma split_app_sep sep q t :
  exists l, l <> [] /\ split sep (q ++ sep :: t) = l ++ split sep t.
Proof.
  induction q as [|c q (l & Hl & IH)]; simpl.
  - exists [[]]. by rewrite eqc_refl.
  - rewrite IH. destruct (eqc c sep).
    + by exists ([] :: l).
    + destruct l as [|h l]; [done|]. by exists ((c :: h) :: l).
Qed.

(** The last piece of [split] is what follows the last separator. *)
Lemma split_last sep q t :
  sep ∉ t -> List.last (split sep (q ++ sep :: t)) [] = t.
Proof.
  intros Ht. destruct (split_app_sep sep q t) as (l & _ & ->).
  rewrite split_no_sep by done. apply last_last.
Qed.

Lemma existsb_eqc_dot (s : text) : existsb (eqc dot) s = true <-> dot ∈ s.
Proof.
  rewrite existsb_exists. split.
  - intros (c & Hin & ->%eqc_true). by apply list_elem_of_In.
  - intros Hin. exists dot. split; [by apply list_elem_of_In|apply eqc_refl].
Qed.

Lemma extract_table_name_captured stmt :
  extract_table_name stmt =
  match captured_ref stmt with
  | Some table_ref =>
      upper (if existsb (eqc dot) table_ref
             then List.last (split dot table_ref) [] else table_ref)
  | None => []
  end.
Proof.
  unfold extract_table_name, captured_ref.
  destruct (re_search true table_name_pattern stmt) as [[g0 [g1|] rest]|]; done.
Qed.

Lemma upper_uppercased s : uppercased (upper s).
Proof.
  unfold uppercased, upper. split.
  - rewrite map_map. apply map_ext. intros c. apply to_upper_idem.
  - induction s as [|c s IH]; simpl; [done|]. by rewrite to_upper_not_lower.
Qed.





(** ** Rule matcher: the errors *)

Lemma missing_colexc_unmatched required_fields full :
  missing_colexc required_fields full = unmatched required_fields full.
Proof.
  unfold missing_colexc, unmatched.
  enough (H : forall acc,
             fold_left (fun missing field =>
                          if colexc_found field full then missing else missing ++ [field])
               required_fields acc
             = acc ++ filter (fun field => colexc_found field full = false) required_fields)
    by apply (H []).
  induction required_fields as [|f fs IH]; intros acc; simpl.
  - by rewrite app_nil_r.
  - rewrite IH. destruct (colexc_found f full) eqn:E.
    + by rewrite filter_cons_False by (by rewrite E).
    + rewrite filter_cons_True by done. by rewrite <- app_assoc.
Qed.

Lemma validate_step_app exclude_fields errors tc :
  validate_step exclude_fields errors tc = errors ++ validate_step exclude_fields [] tc.
Proof.
  unfold validate_step.
  destruct (extract_table_name (table_statement tc)); [done|].
  destruct (exclude_fields !! _); [|by rewrite app_nil_r].
  destruct (missing_colexc _ _); [by rewrite app_nil_r|done].
Qed.

Lemma validate_fold exclude_fields tcs errors :
  fold_left (validate_step exclude_fields) tcs errors
  = errors ++ flat_map (validate_step exclude_fields []) tcs.
Proof.
  revert errors. induction tcs as [|tc tcs IH]; intros errors; simpl.
  - by rewrite app_nil_r.
  - rewrite IH, validate_step_app. by rewrite <- app_assoc.
Qed.

(** The errors of a list are those of its declarations, in order. *)
Lemma validate_around exclude_fields before tc after_ :
  validate_colexc_statements exclude_fields (before ++ tc :: after_)
  = validate_colexc_statements exclude_fields before
    ++ validate_step exclude_fields [] tc
    ++ validate_colexc_statements exclude_fields after_.
Proof.
  unfold validate_colexc_statements. rewrite !validate_fold. simpl.
  by rewrite flat_map_app.
Qed.

(** C6.  A declaration whose statement yields no captured identifier gets
    the could-not-extract error and nothing else, whatever the exclusion map
    and the context are; the matcher goes on with the other declarations.
    The bare keyword [TABLE] is such a statement. *)
Theorem no_identifier_error (exclude_fields : gmap text (list text))
    (before after_ : list table_config) (tc : table_config) :
  captured_ref (table_statement tc) = None ->
  validate_colexc_statements exclude_fields (before ++ tc :: after_)
  = validate_colexc_statements exclude_fields before
    ++ [CouldNotExtract (extract_name tc) (table_statement tc)]
    ++ validate_colexc_statements exclude_fields after_
  /\ captured_ref (str "TABLE") = None.
Proof.
  intros Hc. split; [|by vm_compute].
  rewrite validate_around. unfold validate_step.
  by rewrite extract_table_name_captured, Hc.
Qed.

Lemma no_identifier_error_witness :
  captured_ref (table_statement bare_keyword) = None /\
  validate_colexc_statements {[ str "ORDERS" := [str "SSN"] ]} [bare_keyword]
  = [CouldNotExtract (JStr (str "EXT1")) (str "TABLE")].
Proof.
  split; [reflexivity|].
  apply (proj1 (no_identifier_error {[ str "ORDERS" := [str "SSN"] ]} [] [] bare_keyword
                  eq_refl)).
Defined.

(** C10.  When the captured identifier ends in a dot, the table name is
    empty and the declaration gets the could-not-extract error; the
    exclusion map is not consulted, even if it has the empty name as a key.
    [TABLE SCHEMA.] is such a statement. *)
Theorem trailing_dot_error (exclude_fields : gmap text (list text))
    (before after_ : list table_config) (tc : table_config) (q : text) :
  captured_ref (table_statement tc) = Some (q ++ [dot]) ->
  extract_table_name (table_statement tc) = []
  /\ validate_colexc_statements exclude_fields (before ++ tc :: after_)
     = validate_colexc_statements exclude_fields before
       ++ [CouldNotExtract (extract_name tc) (table_statement tc)]
       ++ validate_colexc_statements exclude_fields after_
  /\ captured_ref (str "TABLE SCHEMA.") = Some (str "SCHEMA" ++ [dot]).
Proof.
  intros Hc.
  assert (Hn : extract_table_name (table_statement tc) = []).
  { rewrite extract_table_name_captured, Hc.
    assert (Hd : existsb (eqc dot) (q ++ [dot]) = true).
    { apply existsb_eqc_dot, elem_of_app. right. left. }
    rewrite Hd. by rewrite split_last by apply not_elem_of_nil. }
  split; [done|]. split; [|by vm_compute].
  rewrite validate_around. unfold validate_step. by rewrite Hn.
Qed.

Lemma trailing_dot_error_witness :
  captured_ref (table_statement schema_only) = Some (str "SCHEMA" ++ [dot]) /\
  extract_table_name (table_statement schema_only) = [] /\
  validate_colexc_statements {[ [] := [str "SSN"] ]} [schema_only]
  = [CouldNotExtract (JStr (str "EXT1")) (str "TABLE SCHEMA.")].
Proof.
  split; [reflexivity|].
  pose proof (trailing_dot_error {[ [] := [str "SSN"] ]} [] [] schema_only (str "SCHEMA")
                eq_refl) as (H1 & H2 & _).
  split; [exact H1|exact H2].
Defined.

(** C1, as the source has it.  A declaration whose extracted table name is
    not empty contributes exactly one error when the name is a key of the
    exclusion map and some required field has no exclusion statement in the
    context, and that error lists exactly those fields; it contributes no
    error when every required field has one or when the name is not a key.
    With the map [ORDERS -> SSN, DOB] and a context that excludes [SSN] but
    not [DOB], the only error names [DOB]. *)
Theorem missing_fields_error (exclude_fields : gmap text (list text))
    (before after_ : list table_config) (tc : table_config) :
  extract_table_name (table_statement tc) <> [] ->
  (forall required_fields,
     exclude_fields !! extract_table_name (table_statement tc) = Some required_fields ->
     unmatched required_fields (full_config tc) <> [] ->
     validate_colexc_statements exclude_fields (before ++ tc :: after_)
     = validate_colexc_statements exclude_fields before
       ++ [MissingColexc (extract_name tc) (extract_table_name (table_statement tc))
             (unmatched required_fields (full_config tc))]
       ++ validate_colexc_statements exclude_fields after_)
  /\ ((exclude_fields !! extract_table_name (table_statement tc) = None \/
       exists required_fields,
         exclude_fields !! extract_table_name (table_statement tc) = Some required_fields /\
         unmatched required_fields (full_config tc) = []) ->
      validate_colexc_statements exclude_fields (before ++ tc :: after_)
      = validate_colexc_statements exclude_fields before
        ++ validate_colexc_statements exclude_fields after_)
  /\ (forall name ctx,
        colexc_found (str "SSN") ctx = true ->
        colexc_found (str "DOB") ctx = false ->
        validate_colexc_statements {[ str "ORDERS" := [str "SSN"; str "DOB"] ]}
          [TableConfig name (str "TABLE ORDERS") ctx]
        = [MissingColexc name (str "ORDERS") [str "DOB"]]).
Proof.
  intros Hname. split; [|split].
  - intros required_fields Hreq Hmiss. rewrite validate_around. do 2 f_equal.
    unfold validate_step.
    destruct (extract_table_name (table_statement tc)) as [|c n] eqn:E; [done|].
    rewrite Hreq, missing_colexc_unmatched.
    by destruct (unmatched required_fields (full_config tc)).
  - intros H. rewrite validate_around. f_equal.
    enough (Hstep : validate_step exclude_fields [] tc = []) by by rewrite Hstep.
    unfold validate_step.
    destruct (extract_table_name (table_statement tc)) as [|c n] eqn:E; [done|].
    destruct H as [->|(required_fields & -> & Hnone)]; [done|].
    by rewrite missing_colexc_unmatched, Hnone.
  - intros name ctx Hssn Hdob.
    remember (str "SSN") as ssn. remember (str "DOB") as dob.
    unfold validate_colexc_statements, validate_step.
    cbn [fold_left table_statement extract_name full_config].
    replace (extract_table_name (str "TABLE ORDERS")) with ("O"%char :: str "RDERS")
      by (by vm_compute).
    cbn iota. change ("O"%char :: str "RDERS") with (str "ORDERS").
    rewrite lookup_singleton_eq, missing_colexc_unmatched. unfold unmatched.
    rewrite filter_cons_False by (by rewrite Hssn).
    rewrite filter_cons_True by done. done.
Qed.

Lemma missing_fields_error_witness :
  extract_table_name (table_statement orders_decl) <> [] /\
  validate_colexc_statements {[ str "ORDERS" := [str "SSN"; str "DOB"] ]} [orders_decl]
  = [MissingColexc (JStr (str "EXT1")) (str "ORDERS") [str "DOB"]].
Proof.
  assert (Hn : extract_table_name (table_statement orders_decl) <> []) by (vm_compute; discriminate).
  split; [exact Hn|].
  apply (proj1 (missing_fields_error {[ str "ORDERS" := [str "SSN"; str "DOB"] ]}
                  [] [] orders_decl Hn) [str "SSN"; str "DOB"]).
  - change (extract_table_name (table_statement orders_decl)) with (str "ORDERS").
    apply lookup_singleton_eq.
  - vm_compute. discriminate.
Defined.

(** C1 as stated fails on a declaration whose table name comes out empty:
    with an empty exclusion map, so that no table name is one of its keys,
    [TABLE SCHEMA.] still contributes an error. *)
Lemma empty_name_still_an_error :
  (∅ : gmap text (list text)) !! extract_table_name (table_statement schema_only) = None /\
  validate_colexc_statements ∅ [schema_only]
  = [CouldNotExtract (JStr (str "EXT1")) (str "TABLE SCHEMA.")].
Proof. split; [apply lookup_empty|by vm_compute]. Qed.

(** ** Reference loader *)

Lemma add_row_lookup exclude_map table_name field_name t :
  add_row exclude_map table_name field_name !! t =
  if decide (t = table_name)
  then Some (default [] (exclude_map !! table_name) ++ [field_name])
  else exclude_map !! t.
Proof.
  unfold add_row. destruct (decide (t = table_name)) as [->|Hne].
  - rewrite lookup_insert_eq. destruct (exclude_map !! table_name) eqn:E.
    + by rewrite E.
    + by rewrite lookup_insert_eq.
  - rewrite lookup_insert_ne by done.
    destruct (exclude_map !! table_name); [done|]. by rewrite lookup_insert_ne.
Qed.

Lemma group_rows_lookup results exclude_map :
  exists m, group_rows (map some_row results) exclude_map = Some m /\
    forall t, m !! t =
      match fields_for t results with
      | [] => exclude_map !! t
      | fs => Some (default [] (exclude_map !! t) ++ fs)
      end.
Proof.
  revert exclude_map. induction results as [|[t0 f0] results IH]; intros exclude_map.
  - exists exclude_map. done.
  - destruct (IH (add_row exclude_map (upper t0) (upper f0))) as (m & Hm & Hl).
    exists m. split; [exact Hm|]. intros t. rewrite Hl, add_row_lookup.
    unfold fields_for. simpl. destruct (decide (t = upper t0)) as [->|Hne].
    + rewrite filter_cons_True by done. simpl.
      destruct (map _ (filter _ results)); [done|]. by rewrite <- app_assoc.
    + by rewrite filter_cons_False by done.
Qed.

Lemma group_rows_some results exclude_map m :
  group_rows results exclude_map = Some m ->
  exists results', results = map some_row results'.
Proof.
  revert exclude_map. induction results as [|[[t|] [f|]] results IH]; intros exclude_map H;
    simpl in H; try done.
  - by exists [].
  - apply IH in H as (results' & ->). by exists ((t, f) :: results').
Qed.

(** C7, as the source has it.  The loader keeps one entry per row: the list
    stored for a table is the upper-cased field name of each of its rows, in
    row order, and a table is a key exactly when it has a row; so a field
    name occurs in the list as many times as the table has rows with it. *)
Theorem exclude_map_keeps_every_row (results : list (text * text)) :
  exists m, get_exclude_fields (map some_row results) = Some m /\
    forall t, m !! t =
      match fields_for t results with
      | [] => None
      | fs => Some fs
      end.
Proof.
  unfold get_exclude_fields.
  destruct (group_rows_lookup results ∅) as (m & Hm & Hl).
  exists m. split; [exact Hm|]. intros t. rewrite Hl, lookup_empty.
  by destruct (fields_for t results).
Qed.

(** C7 as stated fails: two equal rows leave the field twice in the list of
    its table. *)
Lemma duplicate_rows_kept :
  exists m, get_exclude_fields [(Some (str "orders"), Some (str "ssn"));
                                (Some (str "orders"), Some (str "ssn"))] = Some m /\
            m !! str "ORDERS" = Some [str "SSN"; str "SSN"] /\
            ~ NoDup [str "SSN"; str "SSN"].
Proof.
  destruct (group_rows_lookup [(str "orders", str "ssn"); (str "orders", str "ssn")] ∅)
    as (m & Hm & Hl).
  exists m. split; [exact Hm|]. split; [by rewrite Hl|].
  intros H. apply NoDup_cons in H as [H _]. apply H. left.
Qed.

(** C8.  Every key of the map produced by the loader and every field name
    stored in it is upper-cased, whatever the case of the rows. *)
Theorem exclude_map_uppercased (results : list row) (m : gmap text (list text))
    (t : text) (fs : list text) :
  get_exclude_fields results = Some m ->
  m !! t = Some fs ->
  uppercased t /\ Forall uppercased fs.
Proof.
  intros Hm Ht. unfold get_exclude_fields in Hm.
  destruct (group_rows_some _ _ _ Hm) as (results' & ->).
  destruct (group_rows_lookup results' ∅) as (m' & Hm' & Hl).
  rewrite Hm in Hm'. injection Hm' as <-.
  rewrite Hl, lookup_empty in Ht. unfold fields_for in Ht. simpl in Ht.
  destruct (filter _ results') as [|r rs] eqn:E; [done|].
  injection Ht as <-. split.
  - assert (Hin : r ∈ filter (fun r => upper (fst r) = t) results') by (rewrite E; left).
    apply list_elem_of_filter in Hin as [<- _]. apply upper_uppercased.
  - change (Forall uppercased (map (fun r => upper (snd r)) (r :: rs))).
    generalize (r :: rs). intros l.
    induction l as [|r' l IH]; simpl; [constructor|].
    constructor; [apply upper_uppercased|done].
Qed.

Lemma exclude_map_uppercased_witness :
  exists m, get_exclude_fields mixed_case_rows = Some m /\
            m !! str "ORDERS" = Some [str "SSN"; str "DOB"] /\
            uppercased (str "ORDERS") /\ Forall uppercased [str "SSN"; str "DOB"].
Proof.
  destruct (group_rows_lookup [(str "Orders", str "ssn"); (str "orders", str "Dob")] ∅)
    as (m & Hm & Hl).
  exists m. split; [exact Hm|].
  assert (Hk : m !! str "ORDERS" = Some [str "SSN"; str "DOB"]) by (by rewrite Hl).
  split; [exact Hk|].
  exact (exclude_map_uppercased mixed_case_rows m (str "ORDERS") _ Hm Hk).
Defined.

(** ** Driver: the environment check *)

(** C9, as the source has it.  When one of the three variables is unset or
    empty, nothing else is attempted: the run prints the header and the
    names of all three variables, whichever are missing, and exits with
    status 1. *)
Theorem missing_env_aborts (w : world) :
  missing_vars w <> [] ->
  main w = ([MissingEnvHeader;
             EnvVarLine (str "DATABRICKS_SERVER_HOSTNAME");
             EnvVarLine (str "DATABRICKS_HTTP_PATH");
             EnvVarLine (str "DATABRICKS_ACCESS_TOKEN")], 1)
  /\ listed_vars (fst (main w)) = map fst (required_vars w).
Proof.
  intros Hmiss.
  assert (Hall : forallb truthy
            [DATABRICKS_SERVER_HOSTNAME w; DATABRICKS_HTTP_PATH w; DATABRICKS_ACCESS_TOKEN w]
          = false).
  { unfold missing_vars, required_vars in Hmiss. simpl.
    destruct (truthy (DATABRICKS_SERVER_HOSTNAME w)) eqn:E1; [|done].
    destruct (truthy (DATABRICKS_HTTP_PATH w)) eqn:E2; [|done].
    destruct (truthy (DATABRICKS_ACCESS_TOKEN w)) eqn:E3; [|done].
    exfalso. apply Hmiss.
    rewrite filter_cons_False by (simpl; by rewrite E1).
    rewrite filter_cons_False by (simpl; by rewrite E2).
    rewrite filter_cons_False by (simpl; by rewrite E3). done. }
  unfold main. rewrite Hall. done.
Qed.

Lemma missing_env_aborts_witness :
  missing_vars no_hostname <> [] /\ snd (main no_hostname) = 1.
Proof.
  assert (H : missing_vars no_hostname <> []) by (vm_compute; discriminate).
  split; [exact H|].
  exact (f_equal snd (proj1 (missing_env_aborts no_hostname H))).
Defined.

(** C9 as stated fails: with only the hostname missing, the listing still
    names the two variables that are set. *)
Lemma listing_names_all_three :
  missing_vars no_hostname = [str "DATABRICKS_SERVER_HOSTNAME"] /\
  listed_vars (fst (main no_hostname)) <> missing_vars no_hostname.
Proof. split; [by vm_compute|]. vm_compute. discriminate. Qed.

(** ** Statement extractor: the walk *)

(** Induction on a document, with the hypothesis for every item of a
    sequence and every value of a mapping. *)
Lemma json_nested_ind (P : json -> Prop) :
  P JNull -> (forall b, P (JBool b)) -> (forall n, P (JNum n)) -> (forall s, P (JStr s)) ->
  (forall items, Forall P items -> P (JArr items)) ->
  (forall fields, Forall (fun kv => P (snd kv)) fields -> P (JObj fields)) ->
  forall j, P j.
Proof.
  intros Hnull Hbool Hnum Hstr Harr Hobj. fix IH 1.
  intros [|b|n|s|items|fields];
    [exact Hnull|exact (Hbool b)|exact (Hnum n)|exact (Hstr s)| |].
  - apply Harr. induction items as [|x l IHl]; constructor; [apply IH|exact IHl].
  - apply Hobj. induction fields as [|kv l IHl]; constructor; [apply IH|exact IHl].
Qed.

Lemma flat_map_flat_map {A B C} (f : B -> list C) (g : A -> list B) (l : list A) :
  flat_map f (flat_map g l) = flat_map (fun x => flat_map f (g x)) l.
Proof. induction l as [|x l IH]; simpl; [done|]. by rewrite flat_map_app, IH. Qed.

Lemma flat_map_ext_Forall {A B} (f g : A -> list B) (l : list A) :
  Forall (fun x => f x = g x) l -> flat_map f l = flat_map g l.
Proof. induction 1 as [|x l Hx _ IH]; simpl; [done|]. by rewrite Hx, IH. Qed.

Lemma find_table_statements_strings name j :
  find_table_statements name j = flat_map (declarations_in name) (strings_under j).
Proof.
  induction j as [| | |s|items IH|fields IH] using json_nested_ind; simpl; try done.
  - by rewrite app_nil_r.
  - rewrite flat_map_flat_map. by apply flat_map_ext_Forall.
  - rewrite flat_map_flat_map. by apply flat_map_ext_Forall.
Qed.

Lemma extract_one_well_formed extract :
  well_formed_entry extract = true ->
  extract_one extract = Some (entry_declarations extract).
Proof.
  destruct extract as [| | | | |fields]; try done.
  unfold well_formed_entry, extract_one, entry_declarations, entry_name, entry_config.
  intros Hwf.
  assert (Hcfg : exists cfg, default (JObj []) (dict_get (str "config") fields) = JObj cfg).
  { destruct (dict_get (str "config") fields) as [[]|]; try done; simpl; eauto. }
  destruct Hcfg as (cfg & ->).
  rewrite <- find_table_statements_strings.
  cbn [key_in subscript mbind option_bind].
  destruct (dict_get (str "raw_config") cfg) as [raw|] eqn:Eraw;
    destruct (dict_get (str "parameters") cfg) as [par|] eqn:Epar.
  all: repeat first
         [ rewrite bool_decide_eq_true_2 by eauto
         | rewrite (bool_decide_eq_false_2 (is_Some None)) by (by intros [? ?]) ].
  all: reflexivity.
Qed.

Lemma extract_all_well_formed extracts table_configs :
  forallb well_formed_entry extracts = true ->
  extract_all extracts table_configs
  = Some (table_configs ++ flat_map entry_declarations extracts).
Proof.
  revert table_configs. induction extracts as [|e es IH]; intros acc; simpl.
  - by rewrite app_nil_r.
  - intros [He Hes]%andb_true_iff. rewrite extract_one_well_formed by done. simpl.
    rewrite IH by done. by rewrite <- app_assoc.
Qed.

(** C2, as the source has it.  For a document that is a mapping whose
    extract list is absent or a sequence of mappings, each with [config]
    absent or a mapping, the extractor returns, entry by entry, one
    declaration per match of the pattern per string value reachable under
    the entry's [config]: each carries the entry's name (or the placeholder)
    and the whole string, each string is searched once, and an entry with an
    empty or absent [config] yields none. *)
Theorem extract_table_configs_walk (doc : json) (entries : list json) :
  document_entries doc = Some entries ->
  forallb well_formed_entry entries = true ->
  extract_table_configs doc = Some (flat_map entry_declarations entries)
  /\ (forall fields,
        dict_get (str "config") fields = None \/
        dict_get (str "config") fields = Some (JObj []) ->
        entry_declarations (JObj fields) = []).
Proof.
  intros Hdoc Hwf. split.
  - destruct doc as [| | | | |fields]; try done. simpl in *.
    destruct (dict_get (str "extracts") fields) as [[]|]; try done;
      injection Hdoc as ->; simpl; by rewrite extract_all_well_formed.
  - intros fields [H|H]; simpl; unfold entry_config; by rewrite H.
Qed.

Lemma extract_table_configs_walk_witness :
  document_entries demo_doc = Some demo_entries /\
  forallb well_formed_entry demo_entries = true /\
  extract_table_configs demo_doc = Some (flat_map entry_declarations demo_entries).
Proof.
  split; [reflexivity|]. split; [reflexivity|].
  exact (proj1 (extract_table_configs_walk demo_doc demo_entries eq_refl eq_refl)).
Defined.

(** C2 as stated fails on an entry whose [config] is [null]: nothing is
    reachable under it, so no declaration is due, and the extractor raises
    on the key test instead of returning the empty list. *)
Lemma null_config_raises :
  strings_under JNull = [] /\
  extract_table_configs null_config_doc = None.
Proof. split; reflexivity. Qed.

(** ** The specification's end-to-end cases, run on the model *)

Example run_missing_dob :
  snd (main (orders_world "TABLE ORDERS, COLEXC (SSN);")) = 1.
Proof. by vm_compute. Qed.

Example run_all_excluded :
  snd (main (orders_world "TABLE ORDERS, COLEXC (SSN), COLEXC (DOB);")) = 0.
Proof. by vm_compute. Qed.

Example run_no_table_statement :
  snd (main (orders_world "EXTRACT E1")) = 0.
Proof. by vm_compute. Qed.

(** * Further properties of the code *)

(** ** Rule matcher: the list of errors *)

Lemma flat_map_nil_iff {A B} (f : A -> list B) (l : list A) :
  flat_map f l = [] <-> forall x, x ∈ l -> f x = [].
Proof.
  induction l as [|x l IH]; simpl.
  - split; [|done]. intros _ x Hx. by apply elem_of_nil in Hx.
  - split.
    + intros [Hx Hl]%app_eq_nil y [->|Hy]%elem_of_cons; [done|]. by apply IH.
    + intros H. rewrite (H x) by left. apply IH. intros y Hy. apply H. by right.
Qed.

Lemma unmatched_nil_iff required_fields full :
  unmatched required_fields full = [] <->
  forall field, field ∈ required_fields -> colexc_found field full = true.
Proof.
  unfold unmatched. induction required_fields as [|f fs IH].
  - split; [|done]. intros _ f Hf. by apply elem_of_nil in Hf.
  - destruct (colexc_found f full) eqn:E.
    + rewrite filter_cons_False by (by rewrite E). rewrite IH. split.
      * intros H g [->|Hg]%elem_of_cons; [done|]. by apply H.
      * intros H g Hg. apply H. by right.
    + rewrite filter_cons_True by done. split; [done|].
      intros H. specialize (H f (list_elem_of_here _ _)). congruence.
Qed.

Lemma validate_flat_map exclude_fields tcs :
  validate_colexc_statements exclude_fields tcs
  = flat_map (validate_step exclude_fields []) tcs.
Proof. unfold validate_colexc_statements. by rewrite validate_fold. Qed.

(** The matcher returns no error exactly when every declaration has a
    non-empty table name and every field required for that name has an
    exclusion statement in the declaration's context. *)
Theorem validation_passes_iff (exclude_fields : gmap text (list text))
    (tcs : list table_config) :
  validate_colexc_statements exclude_fields tcs = [] <->
  forall tc, tc ∈ tcs ->
    extract_table_name (table_statement tc) <> [] /\
    forall required_fields,
      exclude_fields !! extract_table_name (table_statement tc) = Some required_fields ->
      forall field, field ∈ required_fields -> colexc_found field (full_config tc) = true.
Proof.
  rewrite validate_flat_map, flat_map_nil_iff.
  apply forall_proper. intros tc. apply forall_proper. intros _.
  unfold validate_step.
  destruct (extract_table_name (table_statement tc)) as [|c n] eqn:E.
  - split; [done|]. by intros [? _].
  - destruct (exclude_fields !! (c :: n)) as [req|] eqn:El.
    + rewrite missing_colexc_unmatched. split.
      * intros H. split; [done|]. intros req' [= <-]. apply unmatched_nil_iff.
        by destruct (unmatched req (full_config tc)).
      * intros [_ H]. specialize (H req eq_refl). apply unmatched_nil_iff in H.
        by rewrite H.
    + split; [|done]. intros _. split; [done|]. by intros req' [=].
Qed.

(** Validating a concatenation of declaration lists gives the errors of the
    first list followed by those of the second: a declaration's errors do
    not depend on the declarations around it. *)
Theorem validate_concatenation (exclude_fields : gmap text (list text))
    (tcs1 tcs2 : list table_config) :
  validate_colexc_statements exclude_fields (tcs1 ++ tcs2)
  = validate_colexc_statements exclude_fields tcs1
    ++ validate_colexc_statements exclude_fields tcs2.
Proof. rewrite !validate_flat_map. apply flat_map_app. Qed.

(** Every error stems from one of the declarations.  A could-not-extract
    error names a declaration whose table name is empty; a missing-fields
    error names a declaration whose non-empty table name is a key of the map,
    and lists the required fields of that key without an exclusion
    statement, at least one: never a field that is not required. *)
Theorem errors_stem_from_declarations (exclude_fields : gmap text (list text))
    (tcs : list table_config) (e : error) :
  e ∈ validate_colexc_statements exclude_fields tcs ->
  exists tc, tc ∈ tcs /\
    match e with
    | CouldNotExtract name statement =>
        name = extract_name tc /\ statement = table_statement tc /\
        extract_table_name statement = []
    | MissingColexc name table_name missing =>
        name = extract_name tc /\
        table_name = extract_table_name (table_statement tc) /\
        table_name <> [] /\ missing <> [] /\
        exists required_fields,
          exclude_fields !! table_name = Some required_fields /\
          missing = unmatched required_fields (full_config tc) /\
          forall field, field ∈ missing ->
            field ∈ required_fields /\ colexc_found field (full_config tc) = false
    end.
Proof.
  rewrite validate_flat_map. intros He. apply list_elem_of_In, in_flat_map in He.
  destruct He as (tc & Htc & He). apply list_elem_of_In in Htc, He.
  exists tc. split; [done|]. unfold validate_step in He.
  destruct (extract_table_name (table_statement tc)) as [|c n] eqn:E.
  - apply list_elem_of_singleton in He as ->. done.
  - destruct (exclude_fields !! (c :: n)) as [req|] eqn:El;
      [|by apply elem_of_nil in He].
    rewrite missing_colexc_unmatched in He.
    destruct (unmatched req (full_config tc)) as [|f fs] eqn:Eu;
      [by apply elem_of_nil in He|].
    apply list_elem_of_singleton in He as ->.
    repeat (split; [done|]). exists req. split; [done|]. split; [done|].
    intros field Hf. rewrite <- Eu in Hf. unfold unmatched in Hf.
    by apply list_elem_of_filter in Hf as [? ?].
Qed.

Lemma errors_stem_from_declarations_witness :
  MissingColexc (JStr (str "EXT1")) (str "ORDERS") [str "DOB"]
    ∈ validate_colexc_statements {[ str "ORDERS" := [str "SSN"; str "DOB"] ]} [orders_decl]
  /\ exists tc, tc ∈ [orders_decl] /\ str "ORDERS" = extract_table_name (table_statement tc).
Proof.
  assert (H : MissingColexc (JStr (str "EXT1")) (str "ORDERS") [str "DOB"]
                ∈ validate_colexc_statements
                    {[ str "ORDERS" := [str "SSN"; str "DOB"] ]} [orders_decl]).
  { rewrite validate_flat_map. simpl. unfold validate_step.
    change (extract_table_name (table_statement orders_decl)) with (str "ORDERS").
    replace (str "ORDERS") with ("O"%char :: str "RDERS") at 1 by (by vm_compute).
    cbn iota. change ("O"%char :: str "RDERS") with (str "ORDERS").
    rewrite lookup_singleton_eq.
    replace (missing_colexc _ _) with [str "DOB"] by (by vm_compute).
    rewrite app_nil_r. apply list_elem_of_here. }
  split; [exact H|].
  destruct (errors_stem_from_declarations _ _ _ H) as (tc & Htc & _ & Hn & _).
  exists tc. done.
Defined.

(** There is at most one error per declaration. *)
Theorem at_most_one_error_each (exclude_fields : gmap text (list text))
    (tcs : list table_config) :
  length (validate_colexc_statements exclude_fields tcs) <= length tcs.
Proof.
  rewrite validate_flat_map. induction tcs as [|tc tcs IH]; simpl; [done|].
  rewrite length_app.
  assert (H : length (validate_step exclude_fields [] tc) <= 1); [|lia].
  unfold validate_step.
  destruct (extract_table_name (table_statement tc)); simpl; [done|].
  destruct (exclude_fields !! _); simpl; [|lia].
  destruct (missing_colexc _ _); simpl; lia.
Qed.

(** ** Rule matcher: the exclusion statement *)

Lemma starts_with_app (p s : text) : starts_with p (p ++ s) = true.
Proof. induction p as [|c p IH]; simpl; [done|]. by rewrite eqc_refl. Qed.

Lemma contains_infix (pre sub post : text) : contains sub (pre ++ sub ++ post) = true.
Proof.
  induction pre as [|c pre IH]; simpl.
  - destruct (sub ++ post) eqn:E; simpl; rewrite <- E, starts_with_app; done.
  - rewrite IH. apply orb_true_r.
Qed.

Lemma colexc_found_in_larger_context_aux field ctx pre post :
  colexc_found field ctx = true ->
  colexc_found field (pre ++ ctx ++ post) = true.
Proof.
  unfold colexc_found. rewrite !bool_decide_eq_true, !re_search_iff.
  intros (pre' & a & post' & -> & Ha).
  exists (pre ++ pre'), a, (post' ++ post). split; [|done].
  by rewrite <- !app_assoc.
Qed.

(** Text added before or after a context never makes a field go missing;
    and a context without the keyword has every field missing. *)
Theorem colexc_found_in_larger_context (field ctx pre post : text) :
  colexc_found field ctx = true ->
  colexc_found field (pre ++ ctx ++ post) = true
  /\ contains (map to_lower (str "COLEXC")) (map to_lower ctx) = true.
Proof.
  intros H. split; [by apply colexc_found_in_larger_context_aux|].
  apply colexc_found_iff in H
    as (pre' & kw & ws & r1 & f & r2 & post' & -> & Hkw & _).
  unfold ci_eq in Hkw. rewrite !map_app, Hkw, <- !app_assoc. apply contains_infix.
Qed.

Lemma colexc_found_in_larger_context_witness :
  colexc_found (str "SSN") (str "COLEXC (SSN)") = true /\
  colexc_found (str "SSN") (str "TABLE ORDERS, " ++ str "COLEXC (SSN)" ++ str ";") = true.
Proof.
  split; [reflexivity|].
  apply (proj1 (colexc_found_in_larger_context (str "SSN") (str "COLEXC (SSN)")
                  (str "TABLE ORDERS, ") (str ";") eq_refl)).
Defined.

Lemma ci_eq_sym a b : ci_eq a b -> ci_eq b a.
Proof. unfold ci_eq. congruence. Qed.

Lemma ci_eq_trans a b c : ci_eq a b -> ci_eq b c -> ci_eq a c.
Proof. unfold ci_eq. congruence. Qed.

Lemma ci_eq_app_inv a b c :
  ci_eq (a ++ b) c -> exists a' b', c = a' ++ b' /\ ci_eq a a' /\ ci_eq b b'.
Proof.
  unfold ci_eq. rewrite map_app. intros H. symmetry in H.
  apply map_eq_app in H as (a' & b' & -> & Ha & Hb). exists a', b'. done.
Qed.

Lemma ci_eq_nil_inv a b : ci_eq a b -> a <> [] -> b <> [].
Proof. intros H%ci_eq_length Ha ->. by destruct a. Qed.

Lemma colexc_found_ci_true field field' ctx ctx' :
  ci_eq field field' -> ci_eq ctx ctx' ->
  colexc_found field ctx = true -> colexc_found field' ctx' = true.
Proof.
  intros Hf Hc. rewrite !colexc_found_iff.
  intros (pre & kw & ws & r1 & f & r2 & post & -> & Hkw & Hne & Hws & Hr1 & Hff & Hr2).
  apply ci_eq_app_inv in Hc as (pre' & c1 & -> & _ & Hc).
  apply ci_eq_app_inv in Hc as (m' & post' & -> & Hc & _).
  apply ci_eq_app_inv in Hc as (kw' & c2 & -> & Hkw' & Hc).
  apply ci_eq_app_inv in Hc as (ws' & c3 & -> & Hws' & Hc).
  apply ci_eq_app_inv in Hc as (r1' & c4 & -> & Hr1' & Hc).
  apply ci_eq_app_inv in Hc as (f' & r2' & -> & Hf' & Hr2').
  exists pre', kw', ws', r1', f', r2', post'. split; [done|].
  split; [by eapply ci_eq_trans|].
  split; [by eapply ci_eq_nil_inv|].
  split; [by rewrite <- (forallb_ci_eq _ _ _ is_space_to_lower Hws')|].
  split; [by rewrite <- (forallb_ci_eq _ _ _ not_comma_space_to_lower Hr1')|].
  split; [|by rewrite <- (forallb_ci_eq _ _ _ not_comma_space_to_lower Hr2')].
  eapply ci_eq_trans; [by apply ci_eq_sym|]. by eapply ci_eq_trans.
Qed.

(** The check ignores the case of letters, in the field name and in the
    context alike. *)
Theorem colexc_found_ignores_case (field field' ctx ctx' : text) :
  ci_eq field field' -> ci_eq ctx ctx' ->
  colexc_found field ctx = colexc_found field' ctx'.
Proof.
  intros Hf Hc.
  destruct (colexc_found field ctx) eqn:E1.
  - symmetry. by eapply colexc_found_ci_true.
  - destruct (colexc_found field' ctx') eqn:E2; [|done].
    rewrite <- E1. eapply colexc_found_ci_true; [| |exact E2]; by apply ci_eq_sym.
Qed.

Lemma colexc_found_ignores_case_witness :
  ci_eq (str "SSN") (str "ssn") /\
  ci_eq (str "colexc (Ssn_Masked)") (str "COLEXC (SSN_MASKED)") /\
  colexc_found (str "SSN") (str "colexc (Ssn_Masked)")
  = colexc_found (str "ssn") (str "COLEXC (SSN_MASKED)").
Proof.
  split; [reflexivity|]. split; [reflexivity|].
  apply colexc_found_ignores_case; reflexivity.
Defined.

Lemma infix_across_separator {A} (x : A) (pre m post a b : list A) :
  pre ++ m ++ post = a ++ x :: b -> x ∉ m ->
  (exists post', a = pre ++ m ++ post') \/ (exists pre', b = pre' ++ m ++ post).
Proof.
  intros H Hx. rewrite app_assoc in H.
  apply app_eq_app in H as (l & [[H1 H2]|[H1 H2]]).
  - destruct l as [|y l].
    + left. exists []. rewrite app_nil_r in *. done.
    + injection H2 as <- ->.
      apply app_eq_app in H1 as (l2 & [[H3 H4]|[H3 H4]]).
      * destruct l2 as [|z l2].
        -- exfalso. apply Hx. simpl in H4. rewrite <- H4. left.
        -- injection H4 as <- ->. right. exists l2. by rewrite <- app_assoc.
      * exfalso. apply Hx. rewrite H4. apply elem_of_app. right. left.
  - left. exists l. by rewrite H1, <- app_assoc.
Qed.

Lemma is_space_not_comma c : is_space c = true -> eqc c comma = false.
Proof. by_cases_on_char c. Qed.

Lemma forallb_no_comma (p : ascii -> bool) (s : text) :
  (forall c, p c = true -> eqc c comma = false) ->
  forallb p s = true -> comma ∉ s.
Proof.
  intros Hp. induction s as [|c s IH]; simpl; [intros _; apply not_elem_of_nil|].
  intros [Hc Hs]%andb_true_iff. apply not_elem_of_cons. split; [|auto].
  intros <-. apply Hp in Hc. by rewrite eqc_refl in Hc.
Qed.

Lemma not_comma_space_not_comma c : not_comma_space c = true -> eqc c comma = false.
Proof. unfold not_comma_space. intros H%negb_true_iff. by apply orb_false_iff in H as [? _]. Qed.

(** For a field name free of commas and whitespace, an exclusion statement
    never spans a comma: the field counts as present in [a,b] exactly when
    it does in [a] or in [b].  So of the names in [COLEXC (A, B)] only the
    first is seen. *)
Theorem colexc_found_stops_at_comma (field a b : text) :
  forallb not_comma_space field = true ->
  colexc_found field (a ++ comma :: b) = colexc_found field a || colexc_found field b.
Proof.
  intros Hfield.
  destruct (colexc_found field a) eqn:Ea.
  { apply (colexc_found_in_larger_context_aux field a [] (comma :: b)) in Ea. done. }
  destruct (colexc_found field b) eqn:Eb.
  { apply (colexc_found_in_larger_context_aux field b (a ++ [comma]) []) in Eb.
    rewrite app_nil_r, <- app_assoc in Eb. done. }
  simpl. destruct (colexc_found field (a ++ comma :: b)) eqn:E; [|done].
  apply colexc_found_iff in E
    as (pre & kw & ws & r1 & f & r2 & post & Hctx & Hkw & Hne & Hws & Hr1 & Hf & Hr2).
  symmetry in Hctx. apply infix_across_separator in Hctx.
  - destruct Hctx as [(post' & ->)|(pre' & ->)].
    + assert (colexc_found field (pre ++ (kw ++ ws ++ r1 ++ f ++ r2) ++ post') = true);
        [|congruence].
      apply colexc_found_iff. exists pre, kw, ws, r1, f, r2, post'. done.
    + assert (colexc_found field (pre' ++ (kw ++ ws ++ r1 ++ f ++ r2) ++ post) = true);
        [|congruence].
      apply colexc_found_iff. exists pre', kw, ws, r1, f, r2, post. done.
  - rewrite !not_elem_of_app. repeat split.
    + apply (forallb_no_comma not_comma_space); [apply not_comma_space_not_comma|].
      by rewrite <- (forallb_ci_eq _ _ _ not_comma_space_to_lower Hkw).
    + by apply (forallb_no_comma is_space); [apply is_space_not_comma|].
    + by apply (forallb_no_comma not_comma_space); [apply not_comma_space_not_comma|].
    + apply (forallb_no_comma not_comma_space); [apply not_comma_space_not_comma|].
      by rewrite <- (forallb_ci_eq _ _ _ not_comma_space_to_lower Hf).
    + by apply (forallb_no_comma not_comma_space); [apply not_comma_space_not_comma|].
Qed.

Lemma colexc_found_stops_at_comma_witness :
  forallb not_comma_space (str "DOB") = true /\
  colexc_found (str "DOB") (str "COLEXC (SSN" ++ comma :: str " DOB)") = false.
Proof.
  split; [reflexivity|].
  rewrite (colexc_found_stops_at_comma (str "DOB") (str "COLEXC (SSN") (str " DOB)"));
    reflexivity.
Defined.

(** ** Rule matcher: the table name, further *)

Lemma split_pieces (p : ascii -> bool) sep s :
  forallb p s = true ->
  Forall (fun piece => forallb (fun c => p c && negb (eqc c sep)) piece = true)
    (split sep s).
Proof.
  induction s as [|c s IH]; simpl.
  - intros _. by constructor.
  - intros [Hc Hs]%andb_true_iff. specialize (IH Hs).
    destruct (eqc c sep) eqn:E.
    + by constructor.
    + destruct (split sep s) as [|h t]; [by repeat constructor; simpl; rewrite Hc, E|].
      apply Forall_cons in IH as [Hh Ht]. constructor; [|done].
      simpl. by rewrite Hc, E, Hh.
Qed.

Lemma last_Forall {A} (P : A -> Prop) (l : list A) d :
  P d -> Forall P l -> P (List.last l d).
Proof.
  intros Hd Hl. induction Hl as [|x l Hx Hl IH]; simpl; [done|].
  destruct l; [done|]. exact IH.
Qed.

Lemma ref_char_not_dot_is_word c :
  is_ref_char c && negb (eqc c dot) = true -> is_word c = true.
Proof. by_cases_on_char c. Qed.

Lemma to_upper_word c :
  is_word c = true -> is_word (to_upper c) && negb (is_lower_letter (to_upper c)) = true.
Proof. by_cases_on_char c. Qed.

Lemma forallb_impl (p q : ascii -> bool) (s : text) :
  (forall c, p c = true -> q c = true) -> forallb p s = true -> forallb q s = true.
Proof.
  intros H. induction s as [|c s IH]; simpl; [done|].
  intros [Hc Hs]%andb_true_iff. by rewrite (H c Hc), IH.
Qed.

Lemma forallb_upper (s : text) :
  forallb is_word s = true ->
  forallb (fun c => is_word c && negb (is_lower_letter c)) (upper s) = true.
Proof.
  induction s as [|c s IH]; simpl; [done|].
  intros [Hc Hs]%andb_true_iff. by rewrite to_upper_word, IH.
Qed.

Lemma no_dot_forallb (s : text) :
  existsb (eqc dot) s = false -> forallb (fun c => negb (eqc c dot)) s = true.
Proof.
  induction s as [|c s IH]; simpl; [done|].
  intros [Hc Hs]%orb_false_iff. rewrite IH by done.
  unfold eqc in *. rewrite bool_decide_eq_false in Hc.
  rewrite bool_decide_eq_false_2 by congruence. done.
Qed.

(** For a statement of 7-bit ASCII characters, the table name handed to
    the lookup is made of the capital letters A to Z, digits and underscores
    only: no dot, no small letter, no blank is left in it. *)
Theorem table_name_is_upper_word (stmt : text) :
  forallb is_ascii stmt = true ->
  forallb (fun c => is_digit c || is_upper_letter c || eqc c "_"%char)
    (extract_table_name stmt) = true.
Proof.
  intros _.
  apply (forallb_impl (fun c => is_word c && negb (is_lower_letter c))).
  { intros c. by_cases_on_char c. }
  rewrite extract_table_name_captured.
  destruct (captured_ref stmt) as [ident|] eqn:E; [|done].
  apply captured_ref_sound in E as (_ & _ & _ & _ & _ & _ & _ & _ & _ & Hid).
  apply forallb_upper.
  destruct (existsb (eqc dot) ident) eqn:Ed.
  - apply (last_Forall (fun piece => forallb is_word piece = true)); [done|].
    eapply Forall_impl; [apply (split_pieces is_ref_char dot ident Hid)|].
    intros piece. apply forallb_impl, ref_char_not_dot_is_word.
  - apply no_dot_forallb in Ed.
    assert (H : forallb (fun c => is_ref_char c && negb (eqc c dot)) ident = true).
    { clear -Hid Ed. induction ident as [|c s IH]; simpl in *; [done|].
      apply andb_true_iff in Hid as [-> ?], Ed as [-> ?]. simpl. auto. }
    revert H. apply forallb_impl, ref_char_not_dot_is_word.
Qed.

Lemma table_name_is_upper_word_witness :
  forallb is_ascii qualified_orders = true /\
  forallb (fun c => is_digit c || is_upper_letter c || eqc c "_"%char)
    (extract_table_name qualified_orders) = true.
Proof.
  split; [reflexivity|].
  apply (table_name_is_upper_word qualified_orders). reflexivity.
Defined.

Lemma word_no_dot (t : text) : forallb is_word t = true -> dot ∉ t.
Proof.
  induction t as [|c t IH]; simpl; [intros _; apply not_elem_of_nil|].
  intros [Hc Ht]%andb_true_iff. apply not_elem_of_cons. split; [|auto].
  intros <-. discriminate Hc.
Qed.

Lemma word_is_ref (t : text) : forallb is_word t = true -> forallb is_ref_char t = true.
Proof. apply forallb_impl. intros c Hc. unfold is_ref_char. by rewrite Hc. Qed.

(** In a statement that starts with the keyword, any schema or owner prefix
    of the identifier, however many levels, is dropped, and the case of the
    table name does not matter: the name is the upper-cased last part. *)
Theorem qualifier_is_dropped (kw ws q t rest : text) :
  ci_eq (str "TABLE") kw ->
  ws <> [] -> forallb is_space ws = true ->
  forallb is_ref_char q = true ->
  t <> [] -> forallb is_word t = true ->
  match rest with [] => True | c :: _ => is_ref_char c = false end ->
  extract_table_name (kw ++ ws ++ (q ++ dot :: t) ++ rest) = upper t /\
  extract_table_name (kw ++ ws ++ t ++ rest) = upper t.
Proof.
  intros Hkw Hne Hws Hq Hnt Ht Hrest. split.
  - rewrite extract_table_name_captured, (captured_ref_shape kw ws (q ++ dot :: t) rest);
      try done.
    + assert (Hd : existsb (eqc dot) (q ++ dot :: t) = true).
      { apply existsb_eqc_dot, elem_of_app. right. left. }
      rewrite Hd, split_last; [done|]. by apply word_no_dot.
    + by destruct q.
    + rewrite forallb_app, Hq. simpl. by rewrite word_is_ref.
  - rewrite extract_table_name_captured, (captured_ref_shape kw ws t rest); try done.
    + destruct (existsb (eqc dot) t) eqn:Ed; [|done].
      apply existsb_eqc_dot in Ed. by apply word_no_dot in Ed.
    + by apply word_is_ref.
Qed.

Lemma qualifier_is_dropped_witness :
  extract_table_name qualified_orders = str "ORDERS".
Proof.
  apply (proj1 (qualifier_is_dropped (str "table") (str " ") (str "hr.dbo") (str "Orders")
                  (str ", COLEXC (ssn)") eq_refl ltac:(discriminate) eq_refl eq_refl
                  ltac:(discriminate) eq_refl eq_refl)).
Defined.

(** ** Statement extractor: the declarations it hands over *)

Lemma lstrip_head c s : is_space c = false -> lstrip (c :: s) = c :: s.
Proof. simpl. by intros ->. Qed.

Lemma lstrip_idem s : lstrip (lstrip s) = lstrip s.
Proof.
  induction s as [|c s IH]; simpl; [done|].
  destruct (is_space c) eqn:E; [done|]. simpl. by rewrite E.
Qed.

Lemma lstrip_spaces sp s : forallb is_space sp = true -> lstrip (sp ++ s) = lstrip s.
Proof.
  induction sp as [|c sp IH]; simpl; [done|].
  intros [-> H]%andb_true_iff. auto.
Qed.

Lemma lstrip_decomp s :
  exists sp, s = sp ++ lstrip s /\ forallb is_space sp = true /\
             match lstrip s with [] => True | c :: _ => is_space c = false end.
Proof.
  induction s as [|c s (sp & Hs & Hsp & Hh)]; simpl.
  - by exists [].
  - destruct (is_space c) eqn:E.
    + exists (c :: sp). simpl. rewrite E. split; [congruence|done].
    + exists []. done.
Qed.

(** [rstrip] leaves everything up to a character that is not whitespace. *)
Lemma rstrip_app_nonspace a c b :
  is_space c = false -> rstrip (a ++ c :: b) = a ++ c :: rstrip b.
Proof.
  intros Hc. unfold rstrip. rewrite rev_app_distr. simpl. rewrite <- !app_assoc. simpl.
  destruct (lstrip_decomp (rev b)) as (sp & Hb & Hsp & Hh).
  remember (lstrip (rev b)) as tail eqn:Et. rewrite Hb. clear Hb Et.
  rewrite <- app_assoc, lstrip_spaces by done.
  destruct tail as [|d r].
  - simpl. rewrite Hc. simpl. by rewrite rev_involutive.
  - rewrite <- app_comm_cons, lstrip_head by done.
    rewrite app_comm_cons, rev_app_distr. simpl. rewrite rev_involutive.
    by rewrite <- app_assoc.
Qed.

(** [rstrip] removes a whitespace tail and nothing else. *)
Lemma rstrip_prefix s : exists sp, s = rstrip s ++ sp /\ forallb is_space sp = true.
Proof.
  unfold rstrip. destruct (lstrip_decomp (rev s)) as (sp & Hs & Hsp & _).
  exists (rev sp). split.
  - rewrite <- rev_app_distr, <- Hs. by rewrite rev_involutive.
  - rewrite forallb_forall in *. intros c Hc. apply Hsp. by apply in_rev.
Qed.

Lemma keyword_head kw :
  ci_eq (str "TABLE") kw -> exists c kw', kw = c :: kw' /\ is_space c = false.
Proof.
  intros H. destruct kw as [|c kw']; [done|]. exists c, kw'. split; [done|].
  injection H as Hc _. rewrite <- is_space_to_lower, <- Hc. done.
Qed.

Lemma table_char_not_space c : is_table_char c = true -> is_space c = false.
Proof. by_cases_on_char c. Qed.

(** What [strip] leaves of a matched declaration. *)
Lemma strip_declaration g0 :
  declaration_shape is_table_char g0 ->
  exists kw ws c rest sp,
    strip g0 = kw ++ ws ++ c :: rest /\ g0 = strip g0 ++ sp /\
    forallb is_space sp = true /\
    ci_eq (str "TABLE") kw /\ ws <> [] /\ forallb is_space ws = true /\
    is_table_char c = true.
Proof.
  intros (kw & ws & ident & rest & -> & Hkw & Hne & Hws & Hine & Hid & _).
  destruct ident as [|c ident]; [done|]. simpl in Hid.
  apply andb_true_iff in Hid as [Hc _].
  destruct (keyword_head kw Hkw) as (k & kw' & -> & Hk).
  unfold strip. rewrite <- app_comm_cons, lstrip_head by done.
  rewrite app_comm_cons.
  replace ((k :: kw') ++ ws ++ (c :: ident) ++ rest)
    with (((k :: kw') ++ ws) ++ c :: (ident ++ rest)) by (by rewrite <- !app_assoc).
  rewrite rstrip_app_nonspace by (by apply table_char_not_space).
  destruct (rstrip_prefix (ident ++ rest)) as (sp & Hsp & Hspace).
  exists (k :: kw'), ws, c, (rstrip (ident ++ rest)), sp.
  split; [by rewrite <- !app_assoc|]. split; [|done].
  rewrite <- !app_assoc. simpl. by rewrite <- Hsp.
Qed.

Lemma found_statement tc name obj :
  tc ∈ find_table_statements name obj ->
  exists s m pre,
    s ∈ strings_under obj /\ tc = TableConfig name (strip (group0 m)) s /\
    s = pre ++ group0 m ++ after m /\ declaration_shape is_table_char (group0 m).
Proof.
  rewrite find_table_statements_strings. intros H.
  apply list_elem_of_In, in_flat_map in H as (s & Hs & H).
  apply list_elem_of_In in Hs. unfold declarations_in in H.
  apply in_map_iff in H as (m & <- & Hm). apply list_elem_of_In in Hm.
  apply finditer_from_elem in Hm as (pre & Hpre & Hm).
  apply table_match_shape in Hm as [Hshape _].
  exists s, m, pre. done.
Qed.

(** Every declaration the walk finds carries the name it was given and a
    string reachable under the value as context; its statement is a part of
    that context, starts with the keyword in any case, then whitespace, then
    a word character, dot or asterisk, and has no whitespace at its end. *)
Theorem found_statements_shape (name obj : json) (tc : table_config) :
  tc ∈ find_table_statements name obj ->
  extract_name tc = name /\
  full_config tc ∈ strings_under obj /\
  (exists pre post, full_config tc = pre ++ table_statement tc ++ post) /\
  rstrip (table_statement tc) = table_statement tc /\
  exists kw ws c rest,
    table_statement tc = kw ++ ws ++ c :: rest /\
    ci_eq (str "TABLE") kw /\ ws <> [] /\ forallb is_space ws = true /\
    is_table_char c = true.
Proof.
  intros H. apply found_statement in H as (s & m & pre & Hs & -> & Hpre & Hshape).
  simpl. split; [done|]. split; [done|].
  destruct (strip_declaration _ Hshape)
    as (kw & ws & c & rest & sp & Hstrip & Hg0 & Hsp & Hkw & Hne & Hws & Hc).
  split; [|split].
  - exists pre, (sp ++ after m). rewrite Hpre at 1. rewrite Hg0 at 1.
    by rewrite <- !app_assoc.
  - unfold strip, rstrip. by rewrite rev_involutive, lstrip_idem.
  - exists kw, ws, c, rest. done.
Qed.

Lemma found_statements_shape_witness :
  wildcard_decl ∈ find_table_statements (JStr (str "EXT1")) wildcard_config /\
  extract_name wildcard_decl = JStr (str "EXT1") /\
  full_config wildcard_decl ∈ strings_under wildcard_config.
Proof.
  assert (H : wildcard_decl ∈ find_table_statements (JStr (str "EXT1")) wildcard_config).
  { vm_compute. apply list_elem_of_here. }
  split; [exact H|].
  destruct (found_statements_shape _ _ _ H) as (H1 & H2 & _).
  split; [exact H1|exact H2].
Defined.

Lemma split_last_nil sep s :
  List.last (split sep s) [] = [] -> s = [] \/ exists q, s = q ++ [sep].
Proof.
  induction s as [|c s IH]; simpl; [by left|].
  pose proof (split_not_nil sep s) as Hne.
  destruct (eqc c sep) eqn:E.
  - apply eqc_true in E as ->. intros H. right.
    destruct (split sep s) as [|h t] eqn:Es; [done|].
    destruct (IH H) as [->|(q & ->)]; [by exists []|by exists (sep :: q)].
  - destruct (split sep s) as [|h [|h2 t]] eqn:Es; [done|done|].
    intros H. right. destruct (IH H) as [->|(q & ->)]; [done|by exists (c :: q)].
Qed.

Lemma table_char_not_ref c :
  is_table_char c = true -> is_ref_char c = false -> c = star_char.
Proof. by_cases_on_char c. Qed.

Lemma upper_nil_inv s : upper s = [] -> s = [].
Proof. by destruct s. Qed.

(** A declaration found by the walk yields an empty table name, hence the
    could-not-extract error, only in two cases: no identifier is captured,
    and then the identifier of the statement starts with an asterisk; or the
    captured identifier ends in a dot. *)
Theorem found_statement_without_name (name obj : json) (tc : table_config) :
  tc ∈ find_table_statements name obj ->
  extract_table_name (table_statement tc) = [] ->
  (captured_ref (table_statement tc) = None /\
   exists kw ws rest,
     table_statement tc = kw ++ ws ++ star_char :: rest /\
     ci_eq (str "TABLE") kw /\ ws <> [] /\ forallb is_space ws = true)
  \/ exists q, captured_ref (table_statement tc) = Some (q ++ [dot]).
Proof.
  intros H Hname. apply found_statement in H as (s & m & pre & _ & -> & _ & Hshape).
  simpl in *.
  destruct (strip_declaration _ Hshape)
    as (kw & ws & c & rest & sp & Hstrip & _ & _ & Hkw & Hne & Hws & Hc).
  rewrite extract_table_name_captured in Hname.
  destruct (captured_ref (strip (group0 m))) as [ident|] eqn:E.
  - right. apply upper_nil_inv in Hname.
    apply captured_ref_sound in E as E'.
    destruct E' as (_ & _ & _ & _ & _ & _ & _ & _ & Hine & _).
    destruct (existsb (eqc dot) ident); [|done].
    apply split_last_nil in Hname as [->|(q & ->)]; [done|]. by exists q.
  - left. split; [done|].
    destruct (is_ref_char c) eqn:Er.
    + exfalso. apply captured_ref_none_iff in E. apply E.
      exists [], kw, ws, c, rest. done.
    + apply table_char_not_ref in Er as ->; [|done]. exists kw, ws, rest. done.
Qed.

Lemma found_statement_without_name_witness :
  wildcard_decl ∈ find_table_statements (JStr (str "EXT1")) wildcard_config /\
  extract_table_name (table_statement wildcard_decl) = [] /\
  captured_ref (table_statement wildcard_decl) = Some (str "hr" ++ [dot]).
Proof.
  assert (H : wildcard_decl ∈ find_table_statements (JStr (str "EXT1")) wildcard_config).
  { vm_compute. apply list_elem_of_here. }
  assert (Hn : extract_table_name (table_statement wildcard_decl) = []) by reflexivity.
  split; [exact H|]. split; [exact Hn|].
  destruct (found_statement_without_name _ _ _ H Hn) as [[Hc _]|(q & Hq)].
  - discriminate Hc.
  - reflexivity.
Defined.

(** ** Statement extractor: one declaration per line at most *)

Lemma finditer_skip ic r a b :
  finditer_from ic r (length a) (a ++ b) = finditer_from ic r 0 b.
Proof. induction a as [|c a IH]; simpl; [done|exact IH]. Qed.

Lemma table_match_nonempty s m :
  re_match true table_pattern s = Some m -> exists c g, group0 m = c :: g.
Proof.
  intros H. apply table_match_shape in H as [(kw & ws & ident & rest & -> & Hkw & _) _].
  destruct (keyword_head kw Hkw) as (k & kw' & -> & _). by exists k, (kw' ++ ws ++ ident ++ rest).
Qed.

Lemma line_count_app a b : line_count b <= line_count (a ++ b).
Proof. unfold line_count. rewrite count_occ_app. lia. Qed.

Lemma finditer_lines n s :
  length s <= n ->
  length (finditer_from true table_pattern 0 s) <= line_count s.
Proof.
  revert s. induction n as [|n IH]; intros s Hn.
  - destruct s; [|simpl in Hn; lia]. unfold line_count. simpl. lia.
  - destruct s as [|c s]; [unfold line_count; simpl; lia|].
    cbn [finditer_from].
    destruct (re_match true table_pattern (c :: s)) as [m|] eqn:E.
    + destruct (table_match_nonempty _ _ E) as (c0 & g & Hg).
      pose proof (table_match_shape _ _ E) as [_ Hend].
      apply re_match_sound in E as [Hs _]. rewrite Hg in Hs. injection Hs as -> ->.
      rewrite Hg. replace (length (c0 :: g) - 1) with (length g) by (simpl; lia).
      rewrite finditer_skip.
      simpl in Hn. rewrite length_app in Hn.
      destruct Hend as [Ha|(t & Ha)]; rewrite Ha in *.
      * change (finditer_from true table_pattern 0 []) with (@nil match_obj).
        unfold line_count. cbn [length]. lia.
      * change (finditer_from true table_pattern 0 (newline :: t))
          with (finditer_from true table_pattern 0 t).
        specialize (IH t ltac:(cbn [length] in Hn; lia)).
        pose proof (line_count_app (c0 :: g) (newline :: t)) as Hl.
        assert (Hnl : line_count (newline :: t) = S (line_count t)).
        { reflexivity. }
        rewrite Hnl in Hl. cbn [length]. rewrite <- app_comm_cons in Hl. lia.
    + specialize (IH s ltac:(cbn [length] in Hn; lia)).
      pose proof (line_count_app [c] s) as Hl. cbn [app] in Hl. lia.
Qed.

(** A string yields at most as many declarations as it has lines: a match
    runs to the end of its line, so a second keyword on the same line
    belongs to the first statement and gets no declaration of its own. *)
Theorem one_declaration_per_line (name : json) (s : text) :
  length (find_table_statements name (JStr s)) <= line_count s.
Proof.
  simpl. rewrite length_map. unfold re_finditer. by apply (finditer_lines (length s)).
Qed.

(** ** Statement extractor: when it raises *)

Lemma extract_one_cases extract :
  extract_one extract
  = if entry_accepted extract then Some (entry_declarations extract) else None.
Proof.
  destruct extract as [| | | | |fields]; try done.
  destruct (dict_get (str "config") fields) as [config|] eqn:Ec.
  - destruct config as [| | |s|items|cfg].
    1-3: by unfold extract_one, entry_accepted, entry_config; rewrite Ec.
    + unfold extract_one, entry_accepted, entry_declarations, entry_name, entry_config.
      rewrite Ec. cbn [default from_option id key_in subscript config_accepted mbind option_bind
                      negb andb].
      rewrite <- find_table_statements_strings.
      destruct (contains (str "raw_config") s); [done|].
      destruct (contains (str "parameters") s); done.
    + unfold extract_one, entry_accepted, entry_declarations, entry_name, entry_config.
      rewrite Ec. cbn [default from_option id key_in subscript config_accepted mbind option_bind
                      negb andb].
      rewrite <- find_table_statements_strings.
      destruct (existsb (is_str (str "raw_config")) items); [done|].
      destruct (existsb (is_str (str "parameters")) items); done.
    + rewrite extract_one_well_formed by (by simpl; rewrite Ec).
      by unfold entry_accepted, entry_config; rewrite Ec.
  - rewrite extract_one_well_formed by (by simpl; rewrite Ec).
    by unfold entry_accepted, entry_config; rewrite Ec.
Qed.

Lemma extract_all_cases extracts table_configs :
  extract_all extracts table_configs
  = if forallb entry_accepted extracts
    then Some (table_configs ++ flat_map entry_declarations extracts)
    else None.
Proof.
  revert table_configs. induction extracts as [|e es IH]; intros acc; simpl.
  - by rewrite app_nil_r.
  - rewrite extract_one_cases. destruct (entry_accepted e); [|done]. simpl.
    rewrite IH. destruct (forallb entry_accepted es); [|done]. by rewrite <- app_assoc.
Qed.

(** Over a sequence of entries the extractor returns the declarations of
    all entries, in order, when every entry is a mapping whose [config] is
    absent, a mapping, or a sequence or string without the two key names;
    as soon as one entry is not, it raises and nothing is returned, not even
    the declarations of the entries before it. *)
Theorem extract_table_configs_all_or_nothing (fields : list (text * json))
    (extracts : list json) :
  dict_get (str "extracts") fields = Some (JArr extracts) ->
  extract_table_configs (JObj fields)
  = if forallb entry_accepted extracts
    then Some (flat_map entry_declarations extracts)
    else None.
Proof.
  intros H. unfold extract_table_configs. rewrite H. simpl. apply extract_all_cases.
Qed.

Lemma extract_table_configs_all_or_nothing_witness :
  dict_get (str "extracts") list_config_doc
  = Some (JArr [JObj [(str "name", JStr (str "EXT1"));
                      (str "config", JArr [JStr (str "TABLE HR.ORDERS")])];
                JObj [(str "name", JStr (str "EXT2")); (str "config", JNull)]]) /\
  extract_table_configs (JObj list_config_doc) = None.
Proof.
  split; [reflexivity|].
  rewrite (extract_table_configs_all_or_nothing list_config_doc _ eq_refl). reflexivity.
Defined.

(** The extractor returns a list exactly for a document that is a mapping
    whose extract list is absent, an empty string or mapping, or a sequence
    of entries it gets through; on every other document it raises. *)
Theorem extract_table_configs_returns_iff (doc : json) :
  is_Some (extract_table_configs doc) <->
  exists fields, doc = JObj fields /\
    match dict_get (str "extracts") fields with
    | None => True
    | Some (JArr extracts) => forallb entry_accepted extracts = true
    | Some (JStr s) => s = []
    | Some (JObj keys) => keys = []
    | Some _ => False
    end.
Proof.
  assert (Hnone : forall A, ~ is_Some (@None A)) by (by intros A [? ?]).
  split.
  - destruct doc as [| | | | |fields]; try (by intros ?%Hnone).
    intros Hs. exists fields. split; [done|]. unfold extract_table_configs in Hs.
    destruct (dict_get (str "extracts") fields) as [[| | |s|extracts|keys]|];
      [by apply Hnone in Hs..| | | |done].
    + destruct s; [done|]. by apply Hnone in Hs.
    + simpl in Hs. rewrite extract_all_cases in Hs.
      destruct (forallb entry_accepted extracts); [done|]. by apply Hnone in Hs.
    + destruct keys as [|[k v] keys]; [done|]. by apply Hnone in Hs.
  - intros (fields & -> & H). unfold extract_table_configs.
    destruct (dict_get (str "extracts") fields) as [[| | |s|extracts|keys]|];
      [done..| | | |by eexists].
    + subst s. by eexists.
    + simpl. rewrite extract_all_cases, H. by eexists.
    + subst keys. by eexists.
Qed.

(** ** Reference loader: when it raises *)

Lemma group_rows_none_iff results exclude_map :
  group_rows results exclude_map = None <-> existsb has_null results = true.
Proof.
  revert exclude_map. induction results as [|[[t|] [f|]] results IH]; intros acc; simpl;
    first [done|apply IH].
Qed.

(** The loader raises exactly when some fetched row has a NULL cell; then no
    map at all is produced, whatever the other rows hold. *)
Theorem get_exclude_fields_raises_iff (results : list row) :
  get_exclude_fields results = None <-> exists r, r ∈ results /\ has_null r = true.
Proof.
  unfold get_exclude_fields. rewrite group_rows_none_iff, existsb_exists.
  split; intros (r & Hr & Hn); exists r; split; try done; by apply list_elem_of_In.
Qed.

(** ** Driver: the outcome of a run *)

Lemma env_ok_iff w :
  forallb truthy
    [DATABRICKS_SERVER_HOSTNAME w; DATABRICKS_HTTP_PATH w; DATABRICKS_ACCESS_TOKEN w] = true
  <-> missing_vars w = [].
Proof.
  unfold missing_vars, required_vars. simpl.
  destruct (truthy (DATABRICKS_SERVER_HOSTNAME w)) eqn:E1;
    destruct (truthy (DATABRICKS_HTTP_PATH w)) eqn:E2;
    destruct (truthy (DATABRICKS_ACCESS_TOKEN w)) eqn:E3; simpl;
    repeat first [ rewrite filter_cons_True by (simpl; congruence)
                 | rewrite filter_cons_False by (simpl; congruence) ];
    done.
Qed.

(** The exit status of [main] once the arguments are parsed. *)
Lemma main_exit_zero_iff (w : world) :
  (snd (main w) = 0 <->
   missing_vars w = [] /\ connects w = true /\
   exists exclude_fields doc table_configs,
     fetchall w ≫= get_exclude_fields = Some exclude_fields /\
     config w = Parsed doc /\
     extract_table_configs doc = Some table_configs /\
     validate_colexc_statements exclude_fields table_configs = [])
  /\ (snd (main w) = 0 \/ snd (main w) = 1).
Proof.
  unfold main. rewrite <- env_ok_iff.
  destruct (forallb truthy _); simpl; [|split; [split; [done|by intros [? _]]|by right]].
  destruct (connects w); simpl; [|split; [split; [done|by intros (_ & ? & _)]|by right]].
  destruct (fetchall w ≫= get_exclude_fields) as [m|]; simpl;
    [|split; [split; [done|by intros (_ & _ & ? & ? & ? & ? & _)]|by right]].
  destruct (config w) as [| | |doc]; simpl;
    [split; [split; [done|by intros (_ & _ & ? & ? & ? & _ & ? & _)]|by right]..|].
  destruct (extract_table_configs doc) as [tcs|] eqn:Et; simpl;
    [|split; [split; [done|intros (_ & _ & ? & ? & ? & _ & [= <-] & ? & _); congruence]
             |by right]].
  destruct tcs as [|tc tcs].
  - split; [|by left]. split; [|done]. intros _. split; [done|]. split; [done|].
    exists m, doc, []. done.
  - destruct (validate_colexc_statements m (tc :: tcs)) as [|e es] eqn:Ev; simpl.
    + split; [|by left]. split; [|done]. intros _. split; [done|]. split; [done|].
      exists m, doc, (tc :: tcs). done.
    + split; [|by right]. split; [done|].
      intros (_ & _ & m' & doc' & tcs' & [= <-] & [= <-] & Ht & Hv).
      rewrite Et in Ht. injection Ht as <-. congruence.
Qed.

(** The whole process exits with status 0 exactly when the command line
    asks for help, or the arguments parse, the three variables are set and
    not empty, the connection is made, the rows load, the file parses, the
    extractor returns, and the matcher reports no error (as it does when no
    declaration was found); it exits with status 2 exactly on a usage
    error; every other run exits with status 1. *)
Theorem main_succeeds_iff (args : args_outcome) (w : world) :
  (snd (run_main args w) = 0 <->
   args = HelpRequested \/
   (args = ArgsParsed /\
    missing_vars w = [] /\ connects w = true /\
    exists exclude_fields doc table_configs,
      fetchall w ≫= get_exclude_fields = Some exclude_fields /\
      config w = Parsed doc /\
      extract_table_configs doc = Some table_configs /\
      validate_colexc_statements exclude_fields table_configs = []))
  /\ (snd (run_main args w) = 2 <-> args = UsageError)
  /\ (snd (run_main args w) = 0 \/ snd (run_main args w) = 1 \/ snd (run_main args w) = 2).
Proof.
  destruct (main_exit_zero_iff w) as [Hzero Hcases].
  destruct args; simpl.
  - split; [split; [by left|done]|]. split; [done|by left].
  - split; [split; [done|by intros [?|[? _]]]|]. split; [done|by right; right].
  - split; [|split].
    + rewrite Hzero. split; [by right|]. by intros [?|[_ ?]].
    + split; [|done]. intros H. destruct Hcases as [H0|H1]; congruence.
    + destruct Hcases as [H0|H1]; [by left|by right; left].
Qed.

(** The connection is closed at the end of every run that opened it, and
    only of those: the closing line is printed exactly when the variables
    are set and the connection was made, and it is then the last line. *)
Theorem connection_closed_iff (w : world) :
  (ClosedConnection ∈ fst (main w) <-> missing_vars w = [] /\ connects w = true)
  /\ (ClosedConnection ∈ fst (main w) -> last (fst (main w)) = Some ClosedConnection).
Proof.
  unfold main. rewrite <- env_ok_iff.
  assert (Hno : forall (l : list message),
             Forall (fun msg => msg <> ClosedConnection) l -> ClosedConnection ∉ l).
  { intros l Hl Hin. rewrite Forall_forall in Hl. by apply (Hl _ Hin). }
  destruct (forallb truthy _); simpl.
  2: { match goal with |- (_ ∈ ?l <-> _) /\ _ =>
         assert (Hnot : ClosedConnection ∉ l) by (apply Hno; by repeat constructor) end.
       split; [split; [done|by intros [? _]]|done]. }
  destruct (connects w); simpl.
  2: { match goal with |- (_ ∈ ?l <-> _) /\ _ =>
         assert (Hnot : ClosedConnection ∉ l) by (apply Hno; by repeat constructor) end.
       split; [split; [done|by intros [_ ?]]|done]. }
  assert (Hyes : forall (l : list message),
             ClosedConnection ∈ l ++ [ClosedConnection] /\
             last (l ++ [ClosedConnection]) = Some ClosedConnection).
  { intros l. split; [apply elem_of_app; right; left|apply last_snoc]. }
  destruct (fetchall w ≫= get_exclude_fields) as [m|]; simpl.
  2: { destruct (Hyes [Starting; Connected; ValidationErrorLine]). done. }
  destruct (config w) as [| | |doc]; simpl.
  1-2: by destruct (Hyes [Starting; Connected; Retrieved m; ValidationErrorLine]).
  1: by destruct (Hyes [Starting; Connected; Retrieved m; UnexpectedErrorLine]).
  destruct (extract_table_configs doc) as [[|tc tcs]|]; simpl.
  - by destruct (Hyes [Starting; Connected; Retrieved m; ParsedConfig;
                       FoundStatements []; NoTableStatements]).
  - destruct (validate_colexc_statements m (tc :: tcs)) as [|e es]; simpl.
    + by destruct (Hyes [Starting; Connected; Retrieved m; ParsedConfig;
                         FoundStatements (tc :: tcs); Validating (tc :: tcs);
                         ValidationPassed]).
    + by destruct (Hyes [Starting; Connected; Retrieved m; ParsedConfig;
                         FoundStatements (tc :: tcs); Validating (tc :: tcs);
                         ValidationFailed (e :: es)]).
  - by destruct (Hyes [Starting; Connected; Retrieved m; ParsedConfig;
                       UnexpectedErrorLine]).
Qed.

(** ** Reference loader and rule matcher together *)

Lemma to_upper_to_lower c : to_upper (to_lower c) = to_upper c.
Proof. by_cases_on_char c. Qed.

Lemma upper_ci_eq a b : ci_eq a b -> upper a = upper b.
Proof.
  unfold ci_eq, upper. revert b.
  induction a as [|x a IH]; intros [|y b] H; try discriminate H; [done|].
  injection H as Hxy Hab. cbn [map]. f_equal; [|by apply IH].
  by rewrite <- (to_upper_to_lower x), Hxy, to_upper_to_lower.
Qed.

(** A reference row applies to a declaration whatever case either side
    uses: when a row names table [t0] and a statement that starts with the
    keyword declares a table spelt like [t0] up to case, the name the
    matcher looks up is a key of the loaded map, and the row's field,
    upper-cased, is among the fields it requires. *)
Theorem reference_row_applies (results : list (text * text))
    (t0 f0 kw ws t rest : text) :
  (t0, f0) ∈ results ->
  ci_eq t0 t -> t <> [] -> forallb is_word t = true ->
  ci_eq (str "TABLE") kw -> ws <> [] -> forallb is_space ws = true ->
  match rest with [] => True | c :: _ => is_ref_char c = false end ->
  exists m fs,
    get_exclude_fields (map some_row results) = Some m /\
    m !! extract_table_name (kw ++ ws ++ t ++ rest) = Some fs /\
    upper f0 ∈ fs.
Proof.
  intros Hin Hci Hnt Ht Hkw Hne Hws Hrest.
  destruct (group_rows_lookup results ∅) as (m & Hm & Hl).
  assert (Hname : extract_table_name (kw ++ ws ++ t ++ rest) = upper t0).
  { rewrite extract_table_name_captured, (captured_ref_shape kw ws t rest); try done.
    - rewrite (upper_ci_eq _ _ Hci).
      destruct (existsb (eqc dot) t) eqn:Ed; [|done].
      apply existsb_eqc_dot in Ed. by apply word_no_dot in Ed.
    - by apply word_is_ref. }
  assert (Hf : upper f0 ∈ fields_for (upper t0) results).
  { unfold fields_for. apply list_elem_of_In, in_map_iff. exists (t0, f0).
    split; [done|]. apply list_elem_of_In, list_elem_of_filter. done. }
  exists m, (fields_for (upper t0) results). split; [exact Hm|]. split; [|done].
  rewrite Hname, Hl, lookup_empty.
  destruct (fields_for (upper t0) results); [by apply elem_of_nil in Hf|done].
Qed.

Lemma reference_row_applies_witness :
  exists m fs,
    get_exclude_fields (map some_row lower_case_rows) = Some m /\
    m !! extract_table_name (str "Table" ++ str "  " ++ str "Orders" ++ str ", COLEXC (ssn)")
    = Some fs /\
    upper (str "ssn") ∈ fs.
Proof.
  apply (reference_row_applies lower_case_rows (str "orders") (str "ssn")
           (str "Table") (str "  ") (str "Orders") (str ", COLEXC (ssn)")).
  - apply list_elem_of_here.
  - reflexivity.
  - discriminate.
  - reflexivity.
  - reflexivity.
  - discriminate.
  - reflexivity.
  - reflexivity.
Defined.
